(** * CNNStructureVisualizer: the convolution engine and the patch forward pass

    A shallow embedding of
      - [applyConvolution] (utils/imageProcessing), the full-image 3x3
        convolution with its post-processing options, and
      - the five memoised stages of the [StructureVisualizer] component
        ([featureMap], [pooledValue], [flatVector], [logits],
        [probabilities]).

    Number model.  A JavaScript [number] is modelled as an exact rational
    ([Q]) in the convolution, pooling, flatten and dense stages, and as a
    real ([R]) in the softmax stage, which needs [Math.exp].  The rounding
    of IEEE-754 doubles, [NaN] and the infinities are not modelled.  The
    bytes of a [Uint8ClampedArray] are integers ([Z]); the conversion
    performed by a store into such an array is [toUint8Clamp]. *)

From Stdlib Require Import ZArith QArith Qround Qabs Qminmax Reals Lra Lqa Lia ZifyNat.
From stdpp Require Import base list strings.

(* ====================================================================== *)
(** ** Types (types.ts)                                                    *)
(* ====================================================================== *)

(** [KernelMatrix] is the tuple type
    [[number,number,number],[number,number,number],[number,number,number]]. *)
Record KernelRow : Type := Row3 { c0 : Q; c1 : Q; c2 : Q }.
Record KernelMatrix : Type := Kernel3 { r0 : KernelRow; r1 : KernelRow; r2 : KernelRow }.

(** [row[j]] and [kernel[i]] for the indices 0, 1, 2 (the only ones the
    loops of the source produce). *)
Definition row_at (r : KernelRow) (j : Z) : Q :=
  if (j =? 0)%Z then c0 r else if (j =? 1)%Z then c1 r else c2 r.

Definition kernel_row (k : KernelMatrix) (i : Z) : KernelRow :=
  if (i =? 0)%Z then r0 k else if (i =? 1)%Z then r1 k else r2 k.

Definition kernel_at (k : KernelMatrix) (i j : Z) : Q := row_at (kernel_row k i) j.

Record ProcessingOptions : Type := Options {
  useGrayscale : bool;
  useReLU : bool;
  normalize : bool
}.

(** [ImageData]: [data] is the [Uint8ClampedArray] of RGBA bytes. *)
Record ImageData : Type := MkImageData {
  width : nat;
  height : nat;
  data : list Z
}.

(** What the platform guarantees of every [ImageData]: four bytes per
    pixel, each in 0..255. *)
Definition byte_range (v : Z) : Prop := (0 <= v <= 255)%Z.

Definition wf_image (img : ImageData) : Prop :=
  length (data img) = 4 * (width img * height img) /\ Forall byte_range (data img).

(* ====================================================================== *)
(** ** JavaScript primitives                                               *)
(* ====================================================================== *)

(** The conversion of a store into a [Uint8ClampedArray] (ToUint8Clamp):
    clamp to 0..255, then round to the nearest integer, ties to even. *)
Definition toUint8Clamp (q : Q) : Z :=
  if Qle_bool q 0%Q then 0%Z
  else if Qle_bool 255%Q q then 255%Z
  else
    let f := Qfloor q in
    match (inject_Z f + (1 # 2) ?= q)%Q with
    | Lt => (f + 1)%Z
    | Gt => f
    | Eq => if Z.even f then f else (f + 1)%Z
    end.

(** [a[i]] on a typed array of bytes.  Past the end JavaScript reads
    [undefined]; no read of [applyConvolution] is past the end on a
    well-formed image (four bytes per pixel), so the default is never
    observed there. *)
Definition rd (a : list Z) (i : nat) : Z := default 0%Z (a !! i).

(** [Math.max(0, v)] and [Math.abs(v)]. *)
Definition Math_max0 (v : Q) : Q := Qmax 0%Q v.
Definition Math_abs (v : Q) : Q := Qabs v.

(** The truncating remainder [a % b] of JavaScript (sign of the dividend). *)
Definition Qtrunc (q : Q) : Z := if Qle_bool 0%Q q then Qfloor q else Qceiling q.
Definition js_rem (a b : Q) : Q := (a - b * inject_Z (Qtrunc (a / b)))%Q.

(* ====================================================================== *)
(** ** applyConvolution (utils/imageProcessing)                            *)
(* ====================================================================== *)

Definition RGB : Type := (Q * Q * Q)%type.

(** [kernel.flat()] and [kSum]: computed by the source and never used. *)
Definition kernel_flat (k : KernelMatrix) : list Q :=
  [c0 (r0 k); c1 (r0 k); c2 (r0 k);
   c0 (r1 k); c1 (r1 k); c2 (r1 k);
   c0 (r2 k); c1 (r2 k); c2 (r2 k)].
Definition kSum (k : KernelMatrix) : Q := fold_left Qplus (kernel_flat k) 0%Q.

(** The values of [ky] and of [kx]: [for (let ky = -1; ky <= 1; ky++)]. *)
Definition offsets : list Z := [(-1)%Z; 0%Z; 1%Z].

(** One iteration of the innermost loop body: the bounds check and the
    three accumulations. *)
Definition tap (img : ImageData) (kernel : KernelMatrix) (x y : nat)
           (ky kx : Z) (acc : RGB) : RGB :=
  let '(r, g, b) := acc in
  let py := (Z.of_nat y + ky)%Z in
  let px := (Z.of_nat x + kx)%Z in
  if ((px >=? 0) && (px <? Z.of_nat (width img)) &&
      (py >=? 0) && (py <? Z.of_nat (height img)))%Z
  then
    let pixelIndex := Z.to_nat ((py * Z.of_nat (width img) + px) * 4) in
    let weight := kernel_at kernel (ky + 1) (kx + 1) in
    (r + inject_Z (rd (data img) pixelIndex) * weight,
     g + inject_Z (rd (data img) (pixelIndex + 1)) * weight,
     b + inject_Z (rd (data img) (pixelIndex + 2)) * weight)%Q
  else (r, g, b).

(** The two nested kernel loops, starting from [r = g = b = 0]. *)
Definition accumulate (img : ImageData) (kernel : KernelMatrix) (x y : nat) : RGB :=
  fold_left
    (fun acc ky => fold_left (fun acc kx => tap img kernel x y ky kx acc) offsets acc)
    offsets (0, 0, 0)%Q.

(** Step 1 of the post-processing: ReLU or absolute value. *)
Definition activate (options : ProcessingOptions) (v : Q) : Q :=
  if useReLU options then Math_max0 v else Math_abs v.

Definition activateRGB (options : ProcessingOptions) (p : RGB) : RGB :=
  let '(r, g, b) := p in
  (activate options r, activate options g, activate options b).

(** Step 2: grayscale conversion. *)
Definition grayscale (options : ProcessingOptions) (p : RGB) : RGB :=
  let '(r, g, b) := p in
  if useGrayscale options then
    let avg := ((r + g + b) / 3)%Q in (avg, avg, avg)
  else (r, g, b).

(** The values of [r], [g], [b] at the four stores of a pixel. *)
Definition pixelValue (img : ImageData) (kernel : KernelMatrix)
           (options : ProcessingOptions) (x y : nat) : RGB :=
  grayscale options (activateRGB options (accumulate img kernel x y)).

(** The four stores [output[outputIndex .. outputIndex + 3]]. *)
Definition storePixel (outputIndex : nat) (p : RGB) (output : list Z) : list Z :=
  let '(r, g, b) := p in
  <[outputIndex + 3 := 255%Z]>
    (<[outputIndex + 2 := toUint8Clamp b]>
      (<[outputIndex + 1 := toUint8Clamp g]>
        (<[outputIndex := toUint8Clamp r]> output))).

(** The loops over [y] and [x], on the zero-filled
    [new Uint8ClampedArray(input.length)]. *)
Definition convolvePass (img : ImageData) (kernel : KernelMatrix)
           (options : ProcessingOptions) : list Z :=
  fold_left
    (fun output y =>
       fold_left
         (fun output x =>
            storePixel ((y * width img + x) * 4) (pixelValue img kernel options x y) output)
         (seq 0 (width img)) output)
    (seq 0 (height img))
    (replicate (length (data img)) 0%Z).

(** The values of [i] in [for (let i = 0; i < output.length; i += 4)]. *)
Definition strides (len : nat) : list nat := map (fun k => 4 * k) (seq 0 ((len + 3) / 4)).

(** The body and the loop of the first normalisation pass: global minimum
    and maximum ([Math.min(min, output[i], output[i+1], output[i+2])]). *)
Definition scanAt (output : list Z) (acc : Z * Z) (i : nat) : Z * Z :=
  let '(min, max) := acc in
  (Z.min (Z.min (Z.min min (rd output i)) (rd output (i + 1))) (rd output (i + 2)),
   Z.max (Z.max (Z.max max (rd output i)) (rd output (i + 1))) (rd output (i + 2))).

Definition scanMinMax (output : list Z) : Z * Z :=
  fold_left (scanAt output) (strides (length output)) (255%Z, 0%Z).

(** [((v - min) / range) * 255], stored into the clamped array. *)
Definition rescale (min range v : Z) : Z :=
  toUint8Clamp ((inject_Z (v - min) / inject_Z range) * 255)%Q.

(** The body and the loop of the second normalisation pass, in place. *)
Definition rescaleAt (min range : Z) (output : list Z) (i : nat) : list Z :=
  let o1 := <[i := rescale min range (rd output i)]> output in
  let o2 := <[i + 1 := rescale min range (rd o1 (i + 1))]> o1 in
  <[i + 2 := rescale min range (rd o2 (i + 2))]> o2.

Definition rescalePass (min range : Z) (output : list Z) : list Z :=
  fold_left (rescaleAt min range) (strides (length output)) output.

Definition normalizePass (output : list Z) : list Z :=
  let '(min, max) := scanMinMax output in
  let range := (max - min)%Z in
  if (range >? 0)%Z then rescalePass min range output else output.

Definition applyConvolution (imageData : ImageData) (kernel : KernelMatrix)
           (options : ProcessingOptions) : ImageData :=
  let output := convolvePass imageData kernel options in
  let output := if normalize options then normalizePass output else output in
  MkImageData (width imageData) (height imageData) output.

(* ====================================================================== *)
(** ** StructureVisualizer (components/StructureVisualizer.tsx)            *)
(* ====================================================================== *)

(** [inputPatch[i]?.[j] || 0] on a [number[][]]: a missing row or cell
    reads as 0 (and a cell holding 0 stays 0). *)
Definition patch_at (inputPatch : list (list Q)) (i j : nat) : Q :=
  default 0%Q (inputPatch !! i ≫= fun row => row !! j).

(** [m[y][x] = v] and [m[y][x]] on a nested array.  The component writes
    and reads them at [y, x < 2] on its 2x2 literals and at [i, c < 4] on
    the 4x4 weights, always inside the bounds.  (Outside them JavaScript
    would throw on a missing row, grow the row on a write past its end,
    and read [undefined]; the model leaves the array as it is and reads
    0.) *)
Definition set2 (m : list (list Q)) (y x : nat) (v : Q) : list (list Q) :=
  match m !! y with
  | Some row => <[y := <[x := v]> row]> m
  | None => m
  end.

Definition get2 (m : list (list Q)) (y x : nat) : Q :=
  default 0%Q (m !! y ≫= fun row => row !! x).

Record FeatureMap : Type := MkFeatureMap {
  map_ : list (list Q);
  rawMap : list (list Q)
}.

(** The kernel loops of one output position, starting from [sum = 0]. *)
Definition patchSum (inputPatch : list (list Q)) (kernel : KernelMatrix) (y x : nat) : Q :=
  fold_left
    (fun sum ky =>
       fold_left
         (fun sum kx =>
            let val := patch_at inputPatch (y + ky) (x + kx) in
            let w := kernel_at kernel (Z.of_nat ky) (Z.of_nat kx) in
            (sum + val * w)%Q)
         (seq 0 3) sum)
    (seq 0 3) 0%Q.

(** 1. CONVOLUTION. *)
Definition featureMap (inputPatch : list (list Q)) (kernel : KernelMatrix)
           (useReLU : bool) : FeatureMap :=
  fold_left
    (fun fm y =>
       fold_left
         (fun fm x =>
            let sum := patchSum inputPatch kernel y x in
            MkFeatureMap
              (set2 (map_ fm) y x (if useReLU then Math_max0 sum else sum))
              (set2 (rawMap fm) y x sum))
         (seq 0 2) fm)
    (seq 0 2)
    (MkFeatureMap [[0; 0]; [0; 0]]%Q [[0; 0]; [0; 0]]%Q).

(** [Math.max(...vals)] for a non-empty array.  (On an empty one JavaScript
    gives [-Infinity]; [vals] always has four entries.) *)
Definition Math_max (vals : list Q) : Q :=
  match vals with
  | [] => 0%Q
  | v :: vs => fold_left Qmax vs v
  end.

(** 2. POOLING.  [poolingMode] is the string the component receives. *)
Definition pooledValue (fm : FeatureMap) (poolingMode : string) : Q :=
  let vals := [get2 (map_ fm) 0 0; get2 (map_ fm) 0 1;
               get2 (map_ fm) 1 0; get2 (map_ fm) 1 1] in
  if String.eqb poolingMode "max" then Math_max vals
  else if String.eqb poolingMode "average" then (fold_left Qplus vals 0 / 4)%Q
  else get2 (map_ fm) 0 0.

(** 3. FLATTEN. *)
Definition flatVector (pooledValue : Q) : list Q :=
  let v1 := pooledValue in
  let v2 := Math_abs (255 - pooledValue)%Q in
  let v3 := js_rem (pooledValue * (3 # 2))%Q 255%Q in
  let v4 := (pooledValue / 2)%Q in
  [v1; v2; v3; v4].

(** 4. FULLY CONNECTED: the constants of the component. *)
Definition fcWeights : list (list Q) :=
  [[  8 # 10; -5 # 10;  2 # 10;  1 # 10];
   [ -4 # 10;  9 # 10; -1 # 10; -3 # 10];
   [  5 # 10; -2 # 10;  8 # 10;  2 # 10];
   [  1 # 10;  3 # 10;  1 # 10;  9 # 10]]%Q.

Definition fcBiases : list Q := [10; -5; 0; 5]%Q.

(** [a[i]] on a [number[]].  The dense stage reads [flatVector[i]] and
    [fcBiases[c]] at [i, c < 4] on arrays of four entries
    ([flatVector_length]); past the end JavaScript reads [undefined],
    the model 0. *)
Definition at1 (a : list Q) (i : nat) : Q := default 0%Q (a !! i).

Definition logits (flatVector : list Q) : list Q :=
  fold_left
    (fun result c =>
       let sum :=
         fold_left
           (fun sum i => (sum + at1 flatVector i * get2 fcWeights i c)%Q)
           (seq 0 4) (at1 fcBiases c) in
       <[c := sum]> result)
    (seq 0 4) [0; 0; 0; 0]%Q.

(** 5. SOFTMAX, over the reals. *)
Definition Math_maxR (vals : list R) : R :=
  match vals with
  | [] => 0%R
  | v :: vs => fold_left Rmax vs v
  end.

Definition probabilities (logits : list R) : list R :=
  let maxLogit := Math_maxR logits in
  let exps := map (fun l => exp ((l - maxLogit) / 100)) logits in
  let sumExps := fold_left Rplus exps 0%R in
  map (fun e => (e / sumExps * 100)%R) exps.

(** Everything the component derives from its props. *)
Record Forward : Type := MkForward {
  fwd_featureMap : FeatureMap;
  fwd_pooledValue : Q;
  fwd_flatVector : list Q;
  fwd_logits : list Q;
  fwd_probabilities : list R
}.

Definition forward (inputPatch : list (list Q)) (kernel : KernelMatrix)
           (useReLU : bool) (poolingMode : string) : Forward :=
  let fm := featureMap inputPatch kernel useReLU in
  let p := pooledValue fm poolingMode in
  let fv := flatVector p in
  let lg := logits fv in
  MkForward fm p fv lg (probabilities (map Q2R lg)).

(* ====================================================================== *)
(** ** Notions used in the statements                                      *)
(* ====================================================================== *)

(** The four bytes a pixel's stores leave in the buffer. *)
Definition bytes4 (p : RGB) : list Z :=
  let '(r, g, b) := p in [toUint8Clamp r; toUint8Clamp g; toUint8Clamp b; 255%Z].

(** Byte [c] of pixel [(x, y)] of an image. *)
Definition channel (img : ImageData) (x y c : nat) : Z :=
  rd (data img) ((y * width img + x) * 4 + c).

(** The pixel loop, flattened over the pixel number [p = y * w + x]. *)
Definition pixelLoop (F : nat -> RGB) (ps : list nat) (out : list Z) : list Z :=
  fold_left (fun out p => storePixel (p * 4) (F p) out) ps out.

(** The same options with the [normalize] flag replaced. *)
Definition with_normalize (b : bool) (o : ProcessingOptions) : ProcessingOptions :=
  Options (useGrayscale o) (useReLU o) b.

(** All R, G and B bytes of the image hold one value. *)
Definition rgb_flat (img : ImageData) : Prop :=
  forall x y c x' y' c',
    x < width img -> y < height img -> c < 3 ->
    x' < width img -> y' < height img -> c' < 3 ->
    channel img x y c = channel img x' y' c'.

(** A neighbour position is out of bounds when an index is negative or
    at least the width (height). *)
Definition out_of_bounds (img : ImageData) (px py : Z) : bool :=
  ((px <? 0) || (px >=? Z.of_nat (width img)) ||
   (py <? 0) || (py >=? Z.of_nat (height img)))%Z.

(** [input[py][px][channel]]. *)
Definition input_at (img : ImageData) (py px : Z) (ch : nat) : Z :=
  rd (data img) (Z.to_nat ((py * Z.of_nat (width img) + px) * 4) + ch).

(** The nine pairs [(ky, kx)]. *)
Definition neighbourhood : list (Z * Z) :=
  [(-1, -1); (-1, 0); (-1, 1); (0, -1); (0, 0); (0, 1); (1, -1); (1, 0); (1, 1)]%Z.

(** The sum of a list of rationals. *)
Definition Qsum (l : list Q) : Q := foldr Qplus 0%Q l.

(** The sum of [kernel[ky+1][kx+1] * input[y+ky][x+kx][channel]] over the
    neighbours that are inside the image; the others are left out. *)
Definition conv_sum (img : ImageData) (kernel : KernelMatrix) (x y ch : nat) : Q :=
  Qsum
    (map (fun kk : Z * Z =>
            (kernel_at kernel (kk.1 + 1) (kk.2 + 1) *
             inject_Z (input_at img (Z.of_nat y + kk.1) (Z.of_nat x + kk.2) ch))%Q)
         (List.filter
            (fun kk : Z * Z =>
               negb (out_of_bounds img (Z.of_nat x + kk.2) (Z.of_nat y + kk.1)))
            neighbourhood)).

(** Component 0, 1, 2 of a triple [(r, g, b)]. *)
Definition component (p : RGB) (c : nat) : Q :=
  match c with
  | 0 => p.1.1
  | 1 => p.1.2
  | _ => p.2
  end.

(** The patch with every missing cell of its first four rows and columns
    filled with 0. *)
Definition pad4x4 (inputPatch : list (list Q)) : list (list Q) :=
  map (fun i => map (fun j => patch_at inputPatch i j) (seq 0 4)) (seq 0 4).

(** The shape the component expects of its patch. *)
Definition patch_4x4 (inputPatch : list (list Q)) : Prop :=
  length inputPatch = 4 /\ Forall (fun row => length row = 4) inputPatch.

(** The dense layer as the specification words it. *)
Definition dense_spec (flatVector : list Q) (c : nat) : Q :=
  (at1 fcBiases c +
   Qsum (map (fun i => at1 flatVector i * get2 fcWeights i c) (seq 0 4)))%Q.

(* ====================================================================== *)
(** ** Kernels of constants.ts and sample data                              *)
(* ====================================================================== *)

Definition IDENTITY_KERNEL : KernelMatrix :=
  Kernel3 (Row3 0 0 0) (Row3 0 1 0) (Row3 0 0 0).

Definition SOBEL_HORIZONTAL : KernelMatrix :=
  Kernel3 (Row3 (-1) (-2) (-1)) (Row3 0 0 0) (Row3 1 2 1).

Definition BOX_BLUR : KernelMatrix :=
  Kernel3 (Row3 (1 # 9) (1 # 9) (1 # 9)) (Row3 (1 # 9) (1 # 9) (1 # 9))
          (Row3 (1 # 9) (1 # 9) (1 # 9)).

(** A 2x2 opaque image and a 1x1 translucent one. *)
Definition img2x2 : ImageData :=
  MkImageData 2 2 [10; 20; 30; 255;  40; 50; 60; 255;
                   70; 80; 90; 255;  100; 110; 120; 255]%Z.

Definition img1x1_translucent : ImageData := MkImageData 1 1 [10; 20; 30; 128]%Z.

Definition patch128 : list (list Q) :=
  [[128; 128; 128; 128]; [128; 128; 128; 128];
   [128; 128; 128; 128]; [128; 128; 128; 128]]%Q.

Definition patch_ramp : list (list Q) :=
  [[0; 0; 0; 0]; [10; 20; 30; 40]; [50; 60; 70; 80]; [255; 255; 255; 255]]%Q.

Definition sample_logits : list R := [1; 2; 3; 4]%R.

Definition ReLU_raw : ProcessingOptions := Options false true false.
Definition abs_raw : ProcessingOptions := Options false false false.
Definition gray_normalized : ProcessingOptions := Options true true true.
Definition ReLU_normalized : ProcessingOptions := Options false true true.

(* ====================================================================== *)
(** ** constants.ts: the preset table                                      *)
(* ====================================================================== *)

Record PresetKernel : Type := MkPreset {
  name : string;
  matrix : KernelMatrix;
  description : string
}.

Definition SOBEL_VERTICAL : KernelMatrix :=
  Kernel3 (Row3 (-1) 0 1) (Row3 (-2) 0 2) (Row3 (-1) 0 1).

Definition LAPLACIAN : KernelMatrix :=
  Kernel3 (Row3 0 1 0) (Row3 1 (-4) 1) (Row3 0 1 0).

Definition SHARPEN : KernelMatrix :=
  Kernel3 (Row3 0 (-1) 0) (Row3 (-1) 5 (-1)) (Row3 0 (-1) 0).

Definition EMBOSS : KernelMatrix :=
  Kernel3 (Row3 (-2) (-1) 0) (Row3 (-1) 1 1) (Row3 0 1 2).

Definition PRESET_KERNELS : list PresetKernel :=
  [ MkPreset "Edge Detection (Sobel Horizontal)" SOBEL_HORIZONTAL
      "Detects horizontal edges by calculating the gradient in the Y direction.";
    MkPreset "Edge Detection (Sobel Vertical)" SOBEL_VERTICAL
      "Detects vertical edges by calculating the gradient in the X direction.";
    MkPreset "Edge Detection (Laplacian)" LAPLACIAN
      "Detects edges in all directions by approximating the second derivative.";
    MkPreset "Sharpen" SHARPEN
      "Enhances the differences between adjacent pixels.";
    MkPreset "Box Blur" BOX_BLUR
      "Averages neighboring pixels to reduce noise and detail.";
    MkPreset "Emboss" EMBOSS
      "Creates a 3D shadow effect." ].

(* ====================================================================== *)
(** ** KernelGrid (components/KernelGrid.tsx)                              *)
(* ====================================================================== *)

(** [row[col] = v] and [newKernel[row][col] = v] on the tuple type, for
    the indices 0, 1, 2 that [kernel.map] and [row.map] produce. *)
Definition set_row (r : KernelRow) (col : nat) (v : Q) : KernelRow :=
  match col with
  | 0 => Row3 v (c1 r) (c2 r)
  | 1 => Row3 (c0 r) v (c2 r)
  | _ => Row3 (c0 r) (c1 r) v
  end.

Definition set_cell (k : KernelMatrix) (row col : nat) (v : Q) : KernelMatrix :=
  match row with
  | 0 => Kernel3 (set_row (r0 k) col v) (r1 k) (r2 k)
  | 1 => Kernel3 (r0 k) (set_row (r1 k) col v) (r2 k)
  | _ => Kernel3 (r0 k) (r1 k) (set_row (r2 k) col v)
  end.

(** [handleChange(row, col, value)].  [numValue] is what
    [parseFloat(value)] gave, [None] standing for [NaN]; the result is the
    kernel passed to [onChange], [None] when [onChange] is not called. *)
Definition handleChange (kernel : KernelMatrix) (row col : nat)
           (numValue : option Q) : option KernelMatrix :=
  match numValue with
  | None => None
  | Some v => Some (set_cell kernel row col v)
  end.

(* ====================================================================== *)
(** ** ImageDisplay (the second component of components/KernelGrid.tsx)    *)
(* ====================================================================== *)

(** [Math.round]: the nearest integer, a tie going up. *)
Definition Math_round (q : Q) : Z := Qfloor (q + (1 # 2))%Q.

(** The size the image is drawn at ([img.onload]): only the width is
    capped. *)
Definition MAX_W : Q := 500%Q.

Definition displaySize (w h : Q) : Q * Q :=
  if negb (Qle_bool w MAX_W) then
    let scale := (MAX_W / w)%Q in
    ((w * scale)%Q, (h * scale)%Q)
  else (w, h).

(** The boundary check of [handleMouseMove] on the pixel [(x, y)] under
    the pointer, and the top-left corner [(startX, startY)] of the box
    handed to [getImageData(startX, startY, 4, 4)]. *)
Definition patchOrigin (canvasWidth canvasHeight x y : Z) : option (Z * Z) :=
  if ((x <? 1) || (x >=? canvasWidth - 2) || (y <? 1) || (y >=? canvasHeight - 2))%Z
  then None
  else Some (x - 1, y - 1)%Z.

(** The loops that turn the 64 bytes [pData] of a 4x4 box into the
    grayscale matrix ([handleMouseMove], and the same loops on the centre
    box in [App]). *)
Definition patchFromPixels (pData : list Z) : list (list Q) :=
  fold_left
    (fun matrix i =>
       fold_left
         (fun matrix j =>
            let idx := (i * 4 + j) * 4 in
            let r := rd pData idx in
            let g := rd pData (idx + 1) in
            let b := rd pData (idx + 2) in
            set2 matrix i j (inject_Z (Math_round (inject_Z (r + g + b) / 3))))
         (seq 0 4) matrix)
    (seq 0 4)
    [[0; 0; 0; 0]; [0; 0; 0; 0]; [0; 0; 0; 0]; [0; 0; 0; 0]]%Q.

(* ====================================================================== *)
(** ** StructureVisualizer: what is shown                                  *)
(* ====================================================================== *)

(** [s.includes(sub)]. *)
Definition includes (s sub : string) : bool :=
  match String.index 0 sub s with
  | Some _ => true
  | None => false
  end.

(** [startY] and [startX] of the receptive field under inspection. *)
Definition startY (activeMapIndex : Z) : Z := (activeMapIndex / 2)%Z.
Definition startX (activeMapIndex : Z) : Z := Z.rem activeMapIndex 2.

(** The index a click on cell [(i, j)] of a grid stores
    ([setActiveMapIndex(i * 2 + j)]), when the label of the grid includes
    "Map"; otherwise the index stays. *)
Definition clickCell (label : string) (i j : nat) (activeMapIndex : Z) : Z :=
  if includes label "Map" then (Z.of_nat i * 2 + Z.of_nat j)%Z else activeMapIndex.

(** [a[i]] for an integer index [i]; [None] is [undefined]. *)
Definition index_Z {A : Type} (a : list A) (i : Z) : option A :=
  if (i <? 0)%Z then None else a !! Z.to_nat i.

(** How a render can fail.  Reading a property of [undefined] raises a
    [TypeError]; the component has no [throw] of its own, so nothing in
    it raises an error about its configuration. *)
Inductive Failure : Type :=
| ConfigurationError
| TypeError.

Inductive Outcome : Type :=
| Returned (result : Forward)
| Failed (failure : Failure).

(** [v.p] or [v[p]], where [v] may be [undefined]. *)
Definition property_of {A : Type} (v : option A) (k : A -> Outcome) : Outcome :=
  match v with
  | Some x => k x
  | None => Failed TypeError
  end.

(** One render of the component and of the grids it mounts, for the
    state [activeMapIndex].  The five stages cannot raise: the kernel is
    a 3x3 tuple, the patch reads are guarded ([?.] and [|| 0]) and the
    pooling mode is a string.  The reads that can raise are, in the
    order they are evaluated:
      - [inputPatch[startY][startX]] and [inputPatch[startY][startX+1]]
        (a missing row raises; a missing cell is [undefined], which is
        shown as nothing),
      - [featureMap.rawMap[startY][startX].toFixed(1)] (a missing row and
        a missing cell both raise),
      - [featureMap.map[startY][startX]] (a missing row raises; a missing
        cell goes to [Math.round]),
      - [data[0].length] in [GridDisplay], for the patch and for the
        feature map ([kernel[0]] is always there). *)
Definition render (inputPatch : list (list Q)) (kernel : KernelMatrix)
           (useReLU : bool) (poolingMode : string) (activeMapIndex : Z) : Outcome :=
  let result := forward inputPatch kernel useReLU poolingMode in
  let featureMap := fwd_featureMap result in
  let startY := startY activeMapIndex in
  let startX := startX activeMapIndex in
  property_of (index_Z inputPatch startY) (fun _ =>
  property_of (index_Z (rawMap featureMap) startY) (fun row =>
  property_of (index_Z row startX) (fun _ =>
  property_of (index_Z (map_ featureMap) startY) (fun _ =>
  property_of (inputPatch !! 0) (fun _ =>
  property_of (map_ featureMap !! 0) (fun _ =>
  Returned result)))))).

(** [isHighlighted] of cell [(i, j)] in [GridDisplay]. *)
Definition isHighlighted (label : string) (highlightIdx : Z) (i j : nat) : bool :=
  let isHighlighted := false in
  let isHighlighted :=
    if includes label "Input" && negb (highlightIdx =? -1)%Z then
      let sY := (highlightIdx / 2)%Z in
      let sX := Z.rem highlightIdx 2 in
      if ((Z.of_nat i >=? sY) && (Z.of_nat i <=? sY + 2) &&
          (Z.of_nat j >=? sX) && (Z.of_nat j <=? sX + 2))%Z
      then true else isHighlighted
    else isHighlighted in
  if includes label "Map" && negb (highlightIdx =? -1)%Z then
    let idx := (Z.of_nat i * 2 + Z.of_nat j)%Z in
    if (idx =? highlightIdx)%Z then true else isHighlighted
  else isHighlighted.

Definition CLASSES : list string := ["Vertical"; "Horizontal"; "Noise"; "Diagonal"]%string.

(** [a.indexOf(v)] on an array of reals: the first position holding [v],
    or -1. *)
Fixpoint indexOf (a : list R) (v : R) : Z :=
  match a with
  | [] => (-1)%Z
  | x :: rest =>
      if Req_dec_T x v then 0%Z
      else let k := indexOf rest v in
           if (k <? 0)%Z then (-1)%Z else (k + 1)%Z
  end.

(** [CLASSES[probabilities.indexOf(Math.max(...probabilities))]]; [None]
    is [undefined]. *)
Definition predictedClass (probabilities : list R) : option string :=
  let k := indexOf probabilities (Math_maxR probabilities) in
  if (k <? 0)%Z then None else CLASSES !! Z.to_nat k.

(* ====================================================================== *)
(** ** App (App.tsx): state and handlers                                   *)
(* ====================================================================== *)

Definition DEFAULT_OPTIONS : ProcessingOptions := Options true true false.

(** The size of the source canvas ([img.onload] of the processing effect). *)
Definition MAX_SIZE : Q := 400%Q.

Definition sourceSize (w h : Q) : Q * Q :=
  if negb (Qle_bool w MAX_SIZE) || negb (Qle_bool h MAX_SIZE) then
    let ratio := Qmin (MAX_SIZE / w) (MAX_SIZE / h) in
    ((w * ratio)%Q, (h * ratio)%Q)
  else (w, h).

(** The state the handlers below write and the views read: the kernel,
    its explanation, the options, the pooling mode and the selected
    patch.  The image, the processed image and the flags of the interface
    are not part of it. *)
Record AppState : Type := MkAppState {
  st_kernel : KernelMatrix;
  st_explanation : string;
  st_options : ProcessingOptions;
  st_poolingMode : string;
  st_selectedPatch : list (list Q)
}.

Definition initialState : AppState :=
  MkAppState
    (default IDENTITY_KERNEL (matrix <$> PRESET_KERNELS !! 0))
    (default EmptyString (description <$> PRESET_KERNELS !! 0))
    DEFAULT_OPTIONS
    "max"
    [[0; 0; 0; 0]; [0; 0; 0; 0]; [0; 0; 0; 0]; [0; 0; 0; 0]]%Q.

Definition handlePresetChange (presetName : string) (st : AppState) : AppState :=
  match List.find (fun p => String.eqb (name p) presetName) PRESET_KERNELS with
  | Some preset =>
      MkAppState (matrix preset) (description preset)
                 (st_options st) (st_poolingMode st) (st_selectedPatch st)
  | None => st
  end.

Definition handleKernelChange (newKernel : KernelMatrix) (st : AppState) : AppState :=
  MkAppState newKernel "Custom kernel configuration."
             (st_options st) (st_poolingMode st) (st_selectedPatch st).

Definition handlePatchSelect (patch : list (list Q)) (st : AppState) : AppState :=
  MkAppState (st_kernel st) (st_explanation st)
             (st_options st) (st_poolingMode st) patch.

(** The three option boxes. *)
Definition toggleGrayscale (st : AppState) : AppState :=
  MkAppState (st_kernel st) (st_explanation st)
             (Options (negb (useGrayscale (st_options st)))
                      (useReLU (st_options st)) (normalize (st_options st)))
             (st_poolingMode st) (st_selectedPatch st).

Definition toggleReLU (st : AppState) : AppState :=
  MkAppState (st_kernel st) (st_explanation st)
             (Options (useGrayscale (st_options st))
                      (negb (useReLU (st_options st))) (normalize (st_options st)))
             (st_poolingMode st) (st_selectedPatch st).

Definition togglePooling (st : AppState) : AppState :=
  MkAppState (st_kernel st) (st_explanation st) (st_options st)
             (if String.eqb (st_poolingMode st) "max" then "average" else "max")
             (st_selectedPatch st).

(** What changes the state: what the user can do, with the handler each
    action runs, and the processing effect.  A cell edit goes through
    [KernelGrid.handleChange] into [handleKernelChange]; a pointer move
    over the image hands the bytes of the 4x4 box to [handlePatchSelect].

    The processing effect runs after the first render and after every
    change of the image, the kernel or the options.  It is asynchronous
    (two timers and the loading of the image), so its completion is an
    action of its own, [EffectDone], which can come at any later point,
    also after further actions, and more than once: a second run does
    not cancel the completion of a first one that has passed its first
    timer.  [pData] holds the bytes of the 4x4 box at the centre of the
    source canvas; the completion builds [initPatch] from them with the
    loops of [patchFromPixels] and calls [setSelectedPatch(initPatch)]
    (it also stores the convolved image, which is outside [AppState]).
    Any sequence of actions is allowed, a completion without a run
    before it included: the sequences of the app are among them.

    The image upload and the two handlers that call the remote service
    are left out; none of them sets the options, the pooling mode or the
    patch (an upload re-runs the processing effect). *)
Inductive Action : Type :=
| ClickPreset (presetName : string)
| EditCell (row col : nat) (numValue : option Q)
| ClickGrayscale
| ClickReLU
| ClickPooling
| HoverPatch (pData : list Z)
| EffectDone (pData : list Z).

Definition step (st : AppState) (a : Action) : AppState :=
  match a with
  | ClickPreset presetName => handlePresetChange presetName st
  | EditCell row col numValue =>
      match handleChange (st_kernel st) row col numValue with
      | Some newKernel => handleKernelChange newKernel st
      | None => st
      end
  | ClickGrayscale => toggleGrayscale st
  | ClickReLU => toggleReLU st
  | ClickPooling => togglePooling st
  | HoverPatch pData => handlePatchSelect (patchFromPixels pData) st
  | EffectDone pData =>
      let initPatch := patchFromPixels pData in
      MkAppState (st_kernel st) (st_explanation st) (st_options st)
                 (st_poolingMode st) initPatch
  end.

Definition run (actions : list Action) : AppState := fold_left step actions initialState.

(** What the structure view shows for a state. *)
Definition view (st : AppState) : Forward :=
  forward (st_selectedPatch st) (st_kernel st) (useReLU (st_options st)) (st_poolingMode st).

(** More sample images: [img2x2] with every alpha byte 0, a constant 3x3
    image, and a 2x2 image whose three colour bytes agree. *)
Definition img2x2_faded : ImageData :=
  MkImageData 2 2 [10; 20; 30; 0;  40; 50; 60; 0;
                   70; 80; 90; 0;  100; 110; 120; 0]%Z.

Definition img3x3_flat : ImageData :=
  MkImageData 3 3 (concat (replicate 9 [100; 100; 100; 255]%Z)).

Definition img2x2_gray : ImageData :=
  MkImageData 2 2 [10; 10; 10; 255;  40; 40; 40; 255;
                   70; 70; 70; 255;  200; 200; 200; 255]%Z.

(** [pData] holds the bytes of the 4x4 box of [img] whose top-left pixel
    is [(sx, sy)]: what [getImageData(sx, sy, 4, 4)] returns for a box
    inside the canvas. *)
Definition box_bytes (img : ImageData) (sx sy : nat) (pData : list Z) : Prop :=
  forall i j c, i < 4 -> j < 4 -> c < 4 ->
    rd pData ((i * 4 + j) * 4 + c) = channel img (sx + j) (sy + i) c.

(** A 4x4 image whose three colour bytes agree, and the bytes of its only
    4x4 box. *)
Definition gray4x4_bytes : list Z :=
  concat (map (fun v => [v; v; v; 255]%Z)
              [0; 0; 0; 0;  10; 20; 30; 40;  50; 60; 70; 80;  255; 255; 255; 255]%Z).

Definition img4x4_gray : ImageData := MkImageData 4 4 gray4x4_bytes.

Definition patch7 : list (list Q) :=
  [[7; 7; 7; 7]; [7; 7; 7; 7]; [7; 7; 7; 7]; [7; 7; 7; 7]]%Q.

(** The factor softmax applies to one logit, given the maximum [m] and the
    sum [S] of the exponentials. *)
Definition softmax_factor (m S : R) (x : R) : R := (exp ((x - m) / 100) / S * 100)%R.

(** What every handler keeps: normalisation off, a pooling mode the
    component knows, a 4x4 patch. *)
Definition state_invariant (st : AppState) : Prop :=
  normalize (st_options st) = false /\
  (st_poolingMode st = "max"%string \/ st_poolingMode st = "average"%string) /\
  patch_4x4 (st_selectedPatch st).

(** An image without pixels. *)
Definition img_empty : ImageData := MkImageData 0 0 [].

(* ====================================================================== *)
(** ** Properties of the primitives                                        *)
(* ====================================================================== *)

Ltac Zify.zify_post_hook ::= Z.div_mod_to_equations.

Section Primitives.

Local Open Scope Q_scope.

Lemma toUint8Clamp_comp (q q' : Q) : q == q' -> toUint8Clamp q = toUint8Clamp q'.
Proof.
  intros E. unfold toUint8Clamp.
  rewrite !(Qleb_comp _ _ E _ _ (Qeq_refl _)), !(Qleb_comp _ _ (Qeq_refl _) _ _ E).
  rewrite (Qfloor_comp _ _ E).
  rewrite (Qcompare_comp _ _ (Qeq_refl (inject_Z (Qfloor q') + (1 # 2))) _ _ E).
  reflexivity.
Qed.

Lemma toUint8Clamp_range (q : Q) : byte_range (toUint8Clamp q).
Proof.
  unfold toUint8Clamp, byte_range.
  destruct (Qle_bool q 0) eqn:E0; [lia|].
  destruct (Qle_bool 255 q) eqn:E1; [lia|].
  assert (H0 : 0 < q).
  { apply Qnot_le_lt. intros H. apply Qle_bool_iff in H. congruence. }
  assert (H1 : q < 255).
  { apply Qnot_le_lt. intros H. apply Qle_bool_iff in H. congruence. }
  assert (F0 : (0 <= Qfloor q)%Z).
  { change 0%Z with (Qfloor 0). apply Qfloor_resp_le. apply Qlt_le_weak, H0. }
  assert (F1 : (Qfloor q < 255)%Z).
  { rewrite Zlt_Qlt. eapply Qle_lt_trans; [apply Qfloor_le | exact H1]. }
  cbv zeta.
  destruct (inject_Z (Qfloor q) + (1 # 2) ?= q); [destruct (Z.even _)| |]; lia.
Qed.

Lemma toUint8Clamp_inject_Z (v : Z) : byte_range v -> toUint8Clamp (inject_Z v) = v.
Proof.
  intros [H0 H1]. unfold toUint8Clamp.
  destruct (Qle_bool (inject_Z v) 0) eqn:E0.
  { apply Qle_bool_iff in E0. change 0 with (inject_Z 0) in E0.
    rewrite <- Zle_Qle in E0. lia. }
  destruct (Qle_bool 255 (inject_Z v)) eqn:E1.
  { apply Qle_bool_iff in E1. change 255 with (inject_Z 255) in E1.
    rewrite <- Zle_Qle in E1. lia. }
  cbv zeta. rewrite Qfloor_Z.
  assert (G : inject_Z v < inject_Z v + (1 # 2)).
  { rewrite <- (Qplus_0_r (inject_Z v)) at 1. apply Qplus_lt_r. reflexivity. }
  apply Qgt_alt in G. rewrite G. reflexivity.
Qed.

Lemma toUint8Clamp_nonpos (q : Q) : q <= 0 -> toUint8Clamp q = 0%Z.
Proof.
  intros H. unfold toUint8Clamp. apply Qle_bool_iff in H. rewrite H. reflexivity.
Qed.

End Primitives.

(* ====================================================================== *)
(** ** The convolution loops                                               *)
(* ====================================================================== *)

Section ConvolutionLoops.

Variable img : ImageData.
Variable kernel : KernelMatrix.
Variable options : ProcessingOptions.

Let w := width img.
Let h := height img.
Let pv := pixelValue img kernel options.

Lemma pixel_divmod n x y : x < n -> (y * n + x) mod n = x /\ (y * n + x) / n = y.
Proof.
  intros Hx. rewrite (Nat.add_comm (y * n) x). split.
  - rewrite Nat.Div0.mod_add. by apply Nat.mod_small.
  - rewrite Nat.div_add by lia. rewrite Nat.div_small by done. done.
Qed.

Lemma storePixel_length i p (out : list Z) : length (storePixel i p out) = length out.
Proof. destruct p as [[r g] b]. unfold storePixel. by rewrite !length_insert. Qed.

Lemma storePixel_lookup i p (out : list Z) j :
  j < length out ->
  storePixel i p out !! j =
  if decide (i <= j < i + 4) then bytes4 p !! (j - i) else out !! j.
Proof.
  intros Hj. destruct p as [[r g] b]. unfold storePixel, bytes4.
  rewrite !list_lookup_insert, !length_insert.
  repeat case_decide; try lia.
  - replace (j - i) with 3 by lia. reflexivity.
  - replace (j - i) with 2 by lia. reflexivity.
  - replace (j - i) with 1 by lia. reflexivity.
  - replace (j - i) with 0 by lia. reflexivity.
  - reflexivity.
Qed.

Lemma pixelLoop_length F ps out : length (pixelLoop F ps out) = length out.
Proof.
  revert out. induction ps as [|p ps IH]; intros out; [done|].
  cbn. unfold pixelLoop in IH. rewrite IH. apply storePixel_length.
Qed.

Lemma pixelLoop_lookup F n a (out : list Z) j :
  j < length out ->
  pixelLoop F (seq a n) out !! j =
  if decide (a * 4 <= j < (a + n) * 4) then bytes4 (F (j / 4)) !! (j mod 4) else out !! j.
Proof.
  revert a out. induction n as [|n IH]; intros a out Hj.
  - unfold pixelLoop. cbn [seq fold_left]. case_decide; [lia | done].
  - unfold pixelLoop. cbn [seq fold_left].
    fold (pixelLoop F (seq (S a) n) (storePixel (a * 4) (F a) out)).
    rewrite IH by (by rewrite storePixel_length).
    rewrite storePixel_lookup by done.
    repeat case_decide; try lia; try done.
    replace (j / 4) with a by lia. replace (j mod 4) with (j - a * 4) by lia. done.
Qed.

Lemma row_loop_flat y n a (out : list Z) :
  a + n <= w ->
  fold_left (fun out x => storePixel ((y * w + x) * 4) (pv x y) out) (seq a n) out =
  pixelLoop (fun p => pv (p mod w) (p / w)) (seq (y * w + a) n) out.
Proof.
  revert a out. induction n as [|n IH]; intros a out Ha; [done|].
  cbn [seq fold_left]. rewrite IH by lia. rewrite <- Nat.add_succ_r.
  unfold pixelLoop at 2. cbn [seq fold_left].
  destruct (pixel_divmod w a y) as [-> ->]; [lia|]. done.
Qed.

Lemma convolvePass_flat :
  convolvePass img kernel options =
  pixelLoop (fun p => pv (p mod w) (p / w)) (seq 0 (h * w))
            (replicate (length (data img)) 0%Z).
Proof.
  unfold convolvePass. fold w h pv.
  generalize (replicate (length (data img)) 0%Z).
  induction h as [|n IH]; intros out; [done|].
  rewrite seq_S, fold_left_app. cbn [fold_left]. rewrite IH.
  rewrite row_loop_flat by done.
  replace (S n * w) with (n * w + w) by lia.
  rewrite seq_app. unfold pixelLoop. rewrite fold_left_app.
  by rewrite !Nat.add_0_r.
Qed.

Lemma convolvePass_length : length (convolvePass img kernel options) = length (data img).
Proof. rewrite convolvePass_flat, pixelLoop_length. apply length_replicate. Qed.

Hypothesis Hlen : length (data img) = 4 * (w * h).

Lemma pixel_index_lt x y : x < w -> y < h -> y * w + x < h * w.
Proof. intros Hx Hy. nia. Qed.

(** Byte [c] of pixel [(x, y)] after the convolution loops. *)
Lemma convolvePass_lookup x y c :
  x < w -> y < h -> c < 4 ->
  convolvePass img kernel options !! ((y * w + x) * 4 + c) = bytes4 (pv x y) !! c.
Proof.
  intros Hx Hy Hc. pose proof (pixel_index_lt x y Hx Hy) as Hp.
  rewrite convolvePass_flat, pixelLoop_lookup
    by (rewrite length_replicate, Hlen; nia).
  case_decide; [|nia].
  replace (((y * w + x) * 4 + c) / 4) with (y * w + x) by lia.
  replace (((y * w + x) * 4 + c) mod 4) with c by lia.
  destruct (pixel_divmod w x y) as [-> ->]; done.
Qed.

End ConvolutionLoops.

(* ====================================================================== *)
(** ** The normalisation passes                                            *)
(* ====================================================================== *)

Section Normalisation.

Implicit Types out : list Z.

Lemma strides_length out n :
  length out = 4 * n -> strides (length out) = map (fun k => 4 * k) (seq 0 n).
Proof.
  intros ->. unfold strides. replace ((4 * n + 3) / 4) with n by lia. done.
Qed.

Lemma rd_insert_ne out i j v : i <> j -> rd (<[i := v]> out) j = rd out j.
Proof. intros H. unfold rd. by rewrite list_lookup_insert_ne. Qed.

Lemma rd_lookup out j : j < length out -> out !! j = Some (rd out j).
Proof.
  intros H. unfold rd. apply lookup_lt_is_Some in H. destruct H as [v ->]. done.
Qed.

Lemma rescaleAt_length mn rg out i : length (rescaleAt mn rg out i) = length out.
Proof. unfold rescaleAt. by rewrite !length_insert. Qed.

Lemma rescaleAt_lookup mn rg out i j :
  j < length out ->
  rescaleAt mn rg out i !! j =
  if decide (i <= j < i + 3) then Some (rescale mn rg (rd out j)) else out !! j.
Proof.
  intros Hj. unfold rescaleAt. cbv zeta.
  rewrite !rd_insert_ne by lia.
  rewrite !list_lookup_insert, !length_insert.
  repeat case_decide; try lia; try done.
  - replace j with (i + 2) by lia. done.
  - replace j with (i + 1) by lia. done.
  - replace j with i by lia. done.
Qed.

Lemma rescaleLoop_length mn rg idxs out :
  length (fold_left (rescaleAt mn rg) idxs out) = length out.
Proof.
  revert out. induction idxs as [|i idxs IH]; intros out; [done|].
  cbn. rewrite IH. apply rescaleAt_length.
Qed.

Lemma rescaleLoop_lookup mn rg n a out j :
  j < length out ->
  fold_left (rescaleAt mn rg) (map (fun k => 4 * k) (seq a n)) out !! j =
  if decide (4 * a <= j < 4 * (a + n) /\ j mod 4 <> 3)
  then Some (rescale mn rg (rd out j)) else out !! j.
Proof.
  revert a out. induction n as [|n IH]; intros a out Hj.
  - cbn [seq map fold_left]. case_decide; [lia | done].
  - cbn [seq map fold_left].
    rewrite IH by (by rewrite rescaleAt_length).
    unfold rd at 1. rewrite rescaleAt_lookup by done.
    repeat case_decide; try lia; done.
Qed.

(** What the scan loop has found after the pixels [a .. a + n - 1]. *)
Lemma scanLoop_spec out n a (m0 M0 : Z) :
  let r := fold_left (scanAt out) (map (fun k => 4 * k) (seq a n)) (m0, M0) in
  (r.1 <= m0)%Z /\ (M0 <= r.2)%Z /\
  (forall p c, a <= p < a + n -> c < 3 ->
               (r.1 <= rd out (4 * p + c) <= r.2)%Z) /\
  (r.1 = m0 \/ exists p c, a <= p < a + n /\ c < 3 /\ rd out (4 * p + c) = r.1) /\
  (r.2 = M0 \/ exists p c, a <= p < a + n /\ c < 3 /\ rd out (4 * p + c) = r.2).
Proof.
  induction n as [|n IH]; cbv zeta.
  - cbn. repeat split; try lia. all: by left.
  - rewrite seq_S, map_app, fold_left_app. cbn [map fold_left].
    destruct (fold_left (scanAt out) (map (fun k => 4 * k) (seq a n)) (m0, M0))
      as [mn mx] eqn:E.
    cbv zeta in IH. cbn [fst snd] in IH.
    destruct IH as (I1 & I2 & I3 & I4 & I5).
    unfold scanAt. cbn [fst snd].
    set (v0 := rd out (4 * (a + n))). set (v1 := rd out (4 * (a + n) + 1)).
    set (v2 := rd out (4 * (a + n) + 2)).
    assert (Hc : forall p c, p = a + n -> c < 3 ->
               rd out (4 * p + c) = v0 \/ rd out (4 * p + c) = v1 \/ rd out (4 * p + c) = v2).
    { intros p c -> Hc. destruct c as [|[|[|c]]]; [| | |lia].
      - left. unfold v0. f_equal. lia.
      - right; left. done.
      - right; right. done. }
    split; [lia|]. split; [lia|]. split; [|split].
    + intros p c Hp Hc'. destruct (decide (p = a + n)) as [Heq|Hne].
      * destruct (Hc p c Heq Hc') as [-> | [-> | ->]]; lia.
      * specialize (I3 p c ltac:(lia) Hc'). lia.
    + destruct (Z.min_spec (Z.min (Z.min mn v0) v1) v2) as [[_ ->]|[_ ->]].
      2:{ right. exists (a + n), 2. split; [lia | split; [lia | done]]. }
      destruct (Z.min_spec (Z.min mn v0) v1) as [[_ ->]|[_ ->]].
      2:{ right. exists (a + n), 1. split; [lia | split; [lia | done]]. }
      destruct (Z.min_spec mn v0) as [[_ ->]|[_ ->]].
      2:{ right. exists (a + n), 0. split; [lia | split; [lia |]]. unfold v0. f_equal. lia. }
      destruct I4 as [->|(p & c & Hp & Hc' & Hv)]; [by left|].
      right. exists p, c. split; [lia | split; [lia | done]].
    + destruct (Z.max_spec (Z.max (Z.max mx v0) v1) v2) as [[_ ->]|[_ ->]].
      { right. exists (a + n), 2. split; [lia | split; [lia | done]]. }
      destruct (Z.max_spec (Z.max mx v0) v1) as [[_ ->]|[_ ->]].
      { right. exists (a + n), 1. split; [lia | split; [lia | done]]. }
      destruct (Z.max_spec mx v0) as [[_ ->]|[_ ->]].
      { right. exists (a + n), 0. split; [lia | split; [lia |]]. unfold v0. f_equal. lia. }
      destruct I5 as [->|(p & c & Hp & Hc' & Hv)]; [by left|].
      right. exists p, c. split; [lia | split; [lia | done]].
Qed.

End Normalisation.

(* ====================================================================== *)
(** ** The output buffer, pixel by pixel                                   *)
(* ====================================================================== *)

Lemma rescale_min mn rg : rescale mn rg mn = 0%Z.
Proof.
  unfold rescale. rewrite Z.sub_diag. apply toUint8Clamp_nonpos.
  unfold Qdiv. rewrite !Qmult_0_l. apply Qle_refl.
Qed.

Lemma rescale_max mn mx : (mx - mn > 0)%Z -> rescale mn (mx - mn) mx = 255%Z.
Proof.
  intros Hr. unfold rescale.
  rewrite (toUint8Clamp_comp _ 255%Q); [reflexivity|].
  unfold Qdiv. rewrite Qmult_inv_r; [apply Qmult_1_l|].
  intros E. unfold Qeq in E. cbn in E. lia.
Qed.

Section OutputBuffer.

Variable img : ImageData.
Variable kernel : KernelMatrix.
Variable options : ProcessingOptions.

Let w := width img.
Let h := height img.
Let P := convolvePass img kernel options.

Hypothesis Hlen : length (data img) = 4 * (w * h).

Lemma P_length : length P = 4 * (w * h).
Proof. unfold P. by rewrite convolvePass_length. Qed.

Lemma P_channel x y c :
  x < w -> y < h -> c < 4 ->
  rd P ((y * w + x) * 4 + c) = default 0%Z (bytes4 (pixelValue img kernel options x y) !! c).
Proof.
  intros Hx Hy Hc. unfold rd, P, w.
  by rewrite (convolvePass_lookup img kernel options Hlen) by done.
Qed.

Lemma P_byte_range x y c : x < w -> y < h -> c < 4 -> byte_range (rd P ((y * w + x) * 4 + c)).
Proof.
  intros Hx Hy Hc. rewrite P_channel by done.
  destruct (pixelValue img kernel options x y) as [[r g] b]. unfold bytes4.
  destruct c as [|[|[|[|c]]]]; [..|lia]; cbn.
  1-3: apply toUint8Clamp_range.
  unfold byte_range. lia.
Qed.

(** Every pixel number is the number of a pixel [(x, y)] of the image. *)
Lemma pixel_coordinates p :
  p < w * h -> exists x y, x < w /\ y < h /\ y * w + x = p.
Proof.
  intros Hp. assert (Hw : w <> 0) by lia.
  exists (p mod w), (p / w). split; [by apply Nat.mod_upper_bound|]. split.
  - apply Nat.Div0.div_lt_upper_bound. lia.
  - pose proof (Nat.div_mod_eq p w). lia.
Qed.

Lemma P_byte_range_flat p c : p < w * h -> c < 3 -> byte_range (rd P (4 * p + c)).
Proof.
  intros Hp Hc. destruct (pixel_coordinates p Hp) as (x & y & Hx & Hy & <-).
  replace (4 * (y * w + x) + c) with ((y * w + x) * 4 + c) by lia.
  apply P_byte_range; lia.
Qed.

(** On a non-empty image the scan finds the least and the greatest
    R, G or B byte of the buffer. *)
Lemma scanMinMax_spec :
  0 < w * h ->
  let r := scanMinMax P in
  (forall p c, p < w * h -> c < 3 -> (r.1 <= rd P (4 * p + c) <= r.2)%Z) /\
  (exists p c, p < w * h /\ c < 3 /\ rd P (4 * p + c) = r.1) /\
  (exists p c, p < w * h /\ c < 3 /\ rd P (4 * p + c) = r.2).
Proof.
  intros Hne. cbv zeta. unfold scanMinMax.
  rewrite (strides_length P (w * h) P_length).
  pose proof (scanLoop_spec P (w * h) 0 255 0) as S. cbv zeta in S.
  destruct S as (S1 & S2 & S3 & S4 & S5).
  set (r := fold_left _ _ _) in *.
  pose proof (P_byte_range_flat 0 0 Hne ltac:(lia)) as [B0 B1].
  pose proof (S3 0 0 ltac:(lia) ltac:(lia)) as S0.
  split; [|split].
  - intros p c Hp Hc. apply S3; lia.
  - destruct S4 as [E|(p & c & Hp & Hc & Hv)].
    + exists 0, 0. split; [done|]. split; [lia|]. lia.
    + exists p, c. split; [lia|]. done.
  - destruct S5 as [E|(p & c & Hp & Hc & Hv)].
    + exists 0, 0. split; [done|]. split; [lia|]. lia.
    + exists p, c. split; [lia|]. done.
Qed.

(** Byte [c] of pixel number [p] after the rescaling loop. *)
Lemma rescalePass_channel mn rg p c :
  p < w * h -> c < 4 ->
  rd (rescalePass mn rg P) (4 * p + c) =
  if decide (c = 3) then rd P (4 * p + c) else rescale mn rg (rd P (4 * p + c)).
Proof.
  intros Hp Hc. unfold rescalePass.
  rewrite (strides_length P (w * h) P_length).
  unfold rd at 1. rewrite rescaleLoop_lookup by (rewrite P_length; lia).
  repeat case_decide; try lia; done.
Qed.

End OutputBuffer.

(* ====================================================================== *)
(** ** The convolution sum as the specification words it                   *)
(* ====================================================================== *)

Section ConvolutionSum.

Local Open Scope Q_scope.

Variable img : ImageData.
Variable kernel : KernelMatrix.
Variables x y : nat.

Let step (acc : RGB) (kk : Z * Z) : RGB := tap img kernel x y kk.1 kk.2 acc.

Let inside (kk : Z * Z) : bool :=
  negb (out_of_bounds img (Z.of_nat x + kk.2) (Z.of_nat y + kk.1)).

Let term (ch : nat) (kk : Z * Z) : Q :=
  kernel_at kernel (kk.1 + 1) (kk.2 + 1) *
  inject_Z (input_at img (Z.of_nat y + kk.1) (Z.of_nat x + kk.2) ch).

Lemma tap_inside kk r g b :
  inside kk = true ->
  step (r, g, b) kk = (r + inject_Z (input_at img (Z.of_nat y + kk.1) (Z.of_nat x + kk.2) 0)
                           * kernel_at kernel (kk.1 + 1) (kk.2 + 1),
                       g + inject_Z (input_at img (Z.of_nat y + kk.1) (Z.of_nat x + kk.2) 1)
                           * kernel_at kernel (kk.1 + 1) (kk.2 + 1),
                       b + inject_Z (input_at img (Z.of_nat y + kk.1) (Z.of_nat x + kk.2) 2)
                           * kernel_at kernel (kk.1 + 1) (kk.2 + 1)).
Proof.
  unfold inside, out_of_bounds, step, tap, input_at. intros H.
  rewrite Nat.add_0_r.
  destruct (_ && _ && _ && _)%bool eqn:E; [done|]. exfalso.
  apply negb_true_iff in H.
  rewrite !orb_false_iff in H. rewrite !andb_false_iff in E. lia.
Qed.

Lemma tap_outside kk acc : inside kk = false -> step acc kk = acc.
Proof.
  unfold inside, out_of_bounds, step, tap. intros H. destruct acc as [[r g] b].
  destruct (_ && _ && _ && _)%bool eqn:E; [|done]. exfalso.
  apply negb_false_iff in H.
  rewrite !orb_true_iff in H. rewrite !andb_true_iff in E. lia.
Qed.

Lemma tap_loop (L : list (Z * Z)) r g b :
  let res := fold_left step L (r, g, b) in
  res.1.1 == r + Qsum (map (term 0) (List.filter inside L)) /\
  res.1.2 == g + Qsum (map (term 1) (List.filter inside L)) /\
  res.2 == b + Qsum (map (term 2) (List.filter inside L)).
Proof.
  revert r g b. induction L as [|kk L IH]; intros r g b; cbv zeta.
  - cbn. rewrite !Qplus_0_r. done.
  - cbn [fold_left List.filter]. destruct (inside kk) eqn:E.
    + rewrite tap_inside by done.
      match goal with
      | |- context [fold_left step L (?r', ?g', ?b')] =>
          destruct (IH r' g' b') as (Hr & Hg & Hb)
      end.
      cbv zeta in Hr, Hg, Hb.
      rewrite Hr, Hg, Hb. cbn [map]. unfold Qsum. cbn [foldr]. unfold term.
      repeat split; ring.
    + rewrite tap_outside by done. apply IH.
Qed.

Lemma accumulate_neighbourhood :
  accumulate img kernel x y = fold_left step neighbourhood (0, 0, 0).
Proof. reflexivity. Qed.

Lemma accumulate_conv_sum :
  (accumulate img kernel x y).1.1 == conv_sum img kernel x y 0 /\
  (accumulate img kernel x y).1.2 == conv_sum img kernel x y 1 /\
  (accumulate img kernel x y).2 == conv_sum img kernel x y 2.
Proof.
  rewrite accumulate_neighbourhood.
  destruct (tap_loop neighbourhood 0 0 0) as (Hr & Hg & Hb). cbv zeta in Hr, Hg, Hb.
  rewrite Hr, Hg, Hb, !Qplus_0_l. done.
Qed.

End ConvolutionSum.

(* ====================================================================== *)
(** ** applyConvolution, channel by channel                                *)
(* ====================================================================== *)

Section Channels.

Variable img : ImageData.
Variable kernel : KernelMatrix.
Variable options : ProcessingOptions.

Let w := width img.
Let h := height img.
Let P := convolvePass img kernel options.

Hypothesis Hwf : wf_image img.

Lemma wf_length : length (data img) = 4 * (w * h).
Proof. apply Hwf. Qed.

Lemma bytes4_component p c : c < 3 -> bytes4 p !! c = Some (toUint8Clamp (component p c)).
Proof.
  intros Hc. destruct p as [[r g] b]. destruct c as [|[|[|c]]]; [done..|lia].
Qed.

Lemma bytes4_alpha p : bytes4 p !! 3 = Some 255%Z.
Proof. by destruct p as [[r g] b]. Qed.

(** The bytes of a pixel when [normalize] is off. *)
Lemma raw_channel x y c :
  normalize options = false -> x < w -> y < h -> c < 3 ->
  channel (applyConvolution img kernel options) x y c =
  toUint8Clamp (component (pixelValue img kernel options x y) c).
Proof.
  intros Hn Hx Hy Hc. unfold channel, applyConvolution. rewrite Hn. cbn [data width].
  rewrite (P_channel img kernel options wf_length) by (done || lia).
  by rewrite bytes4_component.
Qed.

Lemma raw_alpha x y :
  normalize options = false -> x < w -> y < h ->
  channel (applyConvolution img kernel options) x y 3 = 255%Z.
Proof.
  intros Hn Hx Hy. unfold channel, applyConvolution. rewrite Hn. cbn [data width].
  rewrite (P_channel img kernel options wf_length) by (done || lia).
  by rewrite bytes4_alpha.
Qed.

(** The normalisation pass applies one and the same function to every
    R, G and B byte. *)
Lemma normalizePass_pointwise :
  exists f : Z -> Z, forall p c,
    p < w * h -> c < 3 -> rd (normalizePass P) (4 * p + c) = f (rd P (4 * p + c)).
Proof.
  unfold normalizePass. destruct (scanMinMax P) as [mn mx].
  destruct (mx - mn >? 0)%Z.
  - exists (rescale mn (mx - mn)). intros p c Hp Hc.
    rewrite (rescalePass_channel img kernel options wf_length) by (done || lia).
    case_decide; [lia | done].
  - exists (fun v => v). done.
Qed.

(** Inside the bounds check of the kernel loops the three reads of the
    input are inside the buffer. *)
Lemma tap_reads_in_range (px py : Z) :
  (0 <= px < Z.of_nat w)%Z -> (0 <= py < Z.of_nat h)%Z ->
  Z.to_nat ((py * Z.of_nat w + px) * 4) + 2 < length (data img).
Proof.
  intros Hpx Hpy. rewrite wf_length. nia.
Qed.

Lemma input_byte_range i : i < length (data img) -> byte_range (rd (data img) i).
Proof.
  intros Hi. destruct Hwf as [_ Hb]. rewrite Forall_lookup in Hb.
  apply (Hb i). by apply rd_lookup.
Qed.

End Channels.

Section EngineFacts.

Variable img : ImageData.
Variable kernel : KernelMatrix.

Let w := width img.
Let h := height img.

Hypothesis Hwf : wf_image img.

(** With or without normalisation, the R, G and B bytes of the output
    are one function of the clamped pixel values. *)
Lemma output_channel_form options :
  exists f : Z -> Z, forall x y c,
    x < w -> y < h -> c < 3 ->
    channel (applyConvolution img kernel options) x y c =
    f (toUint8Clamp (component (pixelValue img kernel options x y) c)).
Proof.
  destruct (normalize options) eqn:Hn.
  - destruct (normalizePass_pointwise img kernel options Hwf) as [f Hf].
    exists f. intros x y c Hx Hy Hc.
    unfold channel, applyConvolution. rewrite Hn. cbn [data width].
    replace ((y * width img + x) * 4 + c) with (4 * (y * width img + x) + c) by lia.
    rewrite Hf by (done || (unfold w, h in *; nia)).
    f_equal.
    replace (4 * (y * width img + x) + c) with ((y * width img + x) * 4 + c) by lia.
    rewrite (P_channel img kernel options (wf_length img Hwf)) by (done || lia).
    by rewrite bytes4_component.
  - exists (fun v => v). intros x y c Hx Hy Hc. by apply raw_channel.
Qed.

Lemma grayscale_components options p c c' :
  useGrayscale options = true -> c < 3 -> c' < 3 ->
  component (grayscale options p) c = component (grayscale options p) c'.
Proof.
  intros Hg Hc Hc'. destruct p as [[r g] b]. unfold grayscale. rewrite Hg.
  destruct c as [|[|[|c]]], c' as [|[|[|c']]]; (done || lia).
Qed.

(** The convolution loops do not read the [normalize] flag. *)
Lemma convolvePass_with_normalize options b :
  convolvePass img kernel (with_normalize b options) = convolvePass img kernel options.
Proof. by destruct options. Qed.

End EngineFacts.

(* ====================================================================== *)
(** ** Theorems on applyConvolution                                        *)
(* ====================================================================== *)

(** C1.  For every image, kernel and options, at every pixel [(x, y)] the
    values of [r], [g] and [b] after the kernel loops (before the
    activation) are the sums of [kernel[ky+1][kx+1] * input[y+ky][x+kx][ch]]
    over the neighbours inside the image, the neighbours outside being
    left out; the sum is not divided by the kernel's weight sum.  The
    values stored for the pixel are computed from these sums. *)
Theorem C1_convolution_sum (img : ImageData) (kernel : KernelMatrix)
        (options : ProcessingOptions) (x y : nat) :
  (component (accumulate img kernel x y) 0 == conv_sum img kernel x y 0 /\
   component (accumulate img kernel x y) 1 == conv_sum img kernel x y 1 /\
   component (accumulate img kernel x y) 2 == conv_sum img kernel x y 2) /\
  pixelValue img kernel options x y =
  grayscale options (activateRGB options (accumulate img kernel x y)).
Proof.
  split; [|reflexivity]. apply accumulate_conv_sum.
Qed.

(** C10.  With [useGrayscale] on, whatever [useReLU] and [normalize] are,
    the R, G and B bytes of every pixel of the output are equal. *)
Theorem C10_grayscale_channels_equal (img : ImageData) (kernel : KernelMatrix)
        (options : ProcessingOptions) (x y : nat) :
  wf_image img -> useGrayscale options = true ->
  x < width img -> y < height img ->
  channel (applyConvolution img kernel options) x y 0 =
  channel (applyConvolution img kernel options) x y 1 /\
  channel (applyConvolution img kernel options) x y 1 =
  channel (applyConvolution img kernel options) x y 2.
Proof.
  intros Hwf Hg Hx Hy.
  destruct (output_channel_form img kernel Hwf options) as [f Hf].
  rewrite !Hf by (done || lia). unfold pixelValue.
  rewrite (grayscale_components options _ 0 1), (grayscale_components options _ 1 2)
    by (done || lia).
  done.
Qed.

(** C5.  On a non-empty image with [normalize] on: when the bytes before
    the normalisation pass are not all equal, the least R, G or B byte of
    the output is 0 and the greatest is 255; when they are all equal, the
    pass leaves the buffer as it is. *)
Theorem C5_normalize_full_range (img : ImageData) (kernel : KernelMatrix)
        (options : ProcessingOptions) :
  wf_image img -> 0 < width img * height img -> normalize options = true ->
  let pre := applyConvolution img kernel (with_normalize false options) in
  let out := applyConvolution img kernel options in
  (rgb_flat pre -> data out = data pre) /\
  (~ rgb_flat pre ->
   (forall x y c, x < width img -> y < height img -> c < 3 ->
                  (0 <= channel out x y c <= 255)%Z) /\
   (exists x y c, x < width img /\ y < height img /\ c < 3 /\ channel out x y c = 0%Z) /\
   (exists x y c, x < width img /\ y < height img /\ c < 3 /\ channel out x y c = 255%Z)).
Proof.
  intros Hwf Hne Hn. cbv zeta.
  pose proof (wf_length img Hwf) as Hlen.
  set (P := convolvePass img kernel options).
  assert (Hpre : data (applyConvolution img kernel (with_normalize false options)) = P).
  { unfold applyConvolution. cbn. apply convolvePass_with_normalize. }
  assert (Hout : data (applyConvolution img kernel options) = normalizePass P).
  { unfold applyConvolution. rewrite Hn. done. }
  assert (Hcp : forall x y c,
             channel (applyConvolution img kernel (with_normalize false options)) x y c =
             rd P (4 * (y * width img + x) + c)).
  { intros x y c. unfold channel. rewrite Hpre. cbn [width applyConvolution].
    f_equal. lia. }
  assert (Hco : forall x y c,
             channel (applyConvolution img kernel options) x y c =
             rd (normalizePass P) (4 * (y * width img + x) + c)).
  { intros x y c. unfold channel. rewrite Hout. cbn [width applyConvolution].
    f_equal. lia. }
  rewrite Hout, Hpre.
  destruct (scanMinMax_spec img kernel options Hlen Hne) as (Hb & Hmin & Hmax).
  cbv zeta in Hb, Hmin, Hmax. fold P in Hb, Hmin, Hmax.
  unfold normalizePass in *. destruct (scanMinMax P) as [mn mx]. cbn [fst snd] in *.
  destruct Hmin as (p1 & c1 & Hp1 & Hc1 & Hv1).
  destruct Hmax as (p2 & c2 & Hp2 & Hc2 & Hv2).
  destruct (pixel_coordinates img Hlen p1 Hp1) as (x1 & y1 & Hx1 & Hy1 & E1).
  destruct (pixel_coordinates img Hlen p2 Hp2) as (x2 & y2 & Hx2 & Hy2 & E2).
  destruct (mx - mn >? 0)%Z eqn:Er.
  - apply Z.gtb_gt in Er. split.
    + intros Hflat. exfalso.
      specialize (Hflat x1 y1 c1 x2 y2 c2 Hx1 Hy1 Hc1 Hx2 Hy2 Hc2).
      rewrite !Hcp, E1, E2, Hv1, Hv2 in Hflat. lia.
    + intros _.
      assert (Hresc : forall x y c, x < width img -> y < height img -> c < 3 ->
                 rd (rescalePass mn (mx - mn) P) (4 * (y * width img + x) + c) =
                 rescale mn (mx - mn) (rd P (4 * (y * width img + x) + c))).
      { intros x y c Hx Hy Hc.
        rewrite (rescalePass_channel img kernel options Hlen) by (lia || nia).
        case_decide; [lia | done]. }
      split; [|split].
      * intros x y c Hx Hy Hc. rewrite Hco, Hresc by done. apply toUint8Clamp_range.
      * exists x1, y1, c1. repeat (split; [done|]).
        rewrite Hco, Hresc, E1, Hv1 by done. apply rescale_min.
      * exists x2, y2, c2. repeat (split; [done|]).
        rewrite Hco, Hresc, E2, Hv2 by done. apply rescale_max. lia.
  - split; [done|]. intros Hnf. exfalso. apply Hnf.
    assert (Er' : (mx - mn <= 0)%Z).
    { destruct (Z.gtb_spec (mx - mn) 0); [discriminate | lia]. }
    intros x y c x' y' c' Hx Hy Hc Hx' Hy' Hc'. rewrite !Hcp.
    change (x < width img) in Hx. change (y < height img) in Hy.
    change (x' < width img) in Hx'. change (y' < height img) in Hy'.
    assert (Hp : y * width img + x < width img * height img) by nia.
    assert (Hp' : y' * width img + x' < width img * height img) by nia.
    pose proof (Hb _ c Hp Hc). pose proof (Hb _ c' Hp' Hc'). lia.
Qed.

Section IdentityKernel.

Local Open Scope Q_scope.

Variable img : ImageData.
Variables x y : nat.

Hypothesis Hwf : wf_image img.
Hypothesis Hx : (x < width img)%nat.
Hypothesis Hy : (y < height img)%nat.

Lemma Qsum_filter {A} (t : A -> Q) (f : A -> bool) (L : list A) :
  Qsum (map t (List.filter f L)) == Qsum (map (fun a => if f a then t a else 0) L).
Proof.
  induction L as [|a L IH]; [done|]. cbn [List.filter map].
  destruct (f a); unfold Qsum in *; cbn [map foldr]; rewrite IH; ring.
Qed.

Lemma identity_weight (i j : Z) :
  kernel_at IDENTITY_KERNEL i j = if ((i =? 1) && (j =? 1))%Z then 1 else 0.
Proof.
  unfold kernel_at, kernel_row, row_at.
  destruct (i =? 0)%Z eqn:E0, (i =? 1)%Z eqn:E1, (j =? 0)%Z eqn:F0, (j =? 1)%Z eqn:F1;
    try reflexivity; lia.
Qed.

Lemma centre_in_bounds :
  out_of_bounds img (Z.of_nat x + 0) (Z.of_nat y + 0) = false.
Proof.
  unfold out_of_bounds. rewrite !Z.geb_leb, !orb_false_iff.
  repeat split; (apply Z.ltb_ge || apply Z.leb_gt); lia.
Qed.

Lemma centre_input ch : input_at img (Z.of_nat y + 0) (Z.of_nat x + 0) ch = channel img x y ch.
Proof. unfold input_at, channel. f_equal. lia. Qed.

Lemma identity_conv_sum ch :
  conv_sum img IDENTITY_KERNEL x y ch == inject_Z (channel img x y ch).
Proof.
  unfold conv_sum. rewrite Qsum_filter.
  unfold neighbourhood, Qsum. cbn [map foldr fst snd].
  rewrite !identity_weight.
  repeat match goal with
         | |- context [(?a + 1 =? 1)%Z] =>
             let b := eval vm_compute in (a + 1 =? 1)%Z in
             change (a + 1 =? 1)%Z with b
         end.
  rewrite centre_in_bounds, centre_input. cbn [negb andb].
  repeat match goal with |- context [if ?c then _ else _] => destruct c end; ring.
Qed.

Lemma identity_pixel ch :
  (ch < 3)%nat ->
  toUint8Clamp
    (component (pixelValue img IDENTITY_KERNEL (Options false true false) x y) ch) =
  channel img x y ch.
Proof.
  intros Hch.
  assert (Hb : byte_range (channel img x y ch)).
  { apply (input_byte_range img Hwf). destruct Hwf as [-> _]. nia. }
  assert (Hs : component (accumulate img IDENTITY_KERNEL x y) ch == inject_Z (channel img x y ch)).
  { rewrite <- identity_conv_sum.
    destruct (accumulate_conv_sum img IDENTITY_KERNEL x y) as (H0 & H1 & H2).
    destruct ch as [|[|[|ch]]]; [done..|lia]. }
  rewrite <- (toUint8Clamp_inject_Z _ Hb).
  apply toUint8Clamp_comp. rewrite <- Hs.
  assert (Hm : forall v, v == inject_Z (channel img x y ch) -> Math_max0 v == v).
  { intros v Hv. unfold Math_max0. apply Q.max_r. rewrite Hv.
    change 0 with (inject_Z 0). rewrite <- Zle_Qle. apply Hb. }
  unfold pixelValue, grayscale, activateRGB, activate. cbn [useGrayscale useReLU].
  destruct (accumulate img IDENTITY_KERNEL x y) as [[r g] b].
  destruct ch as [|[|[|ch]]]; [..|lia]; cbn [component fst snd] in *; by apply Hm.
Qed.

End IdentityKernel.

(** C3 (amended).  Convolving a well-formed image with the identity kernel
    under [useReLU = true], [useGrayscale = false], [normalize = false]
    returns an image of the same size whose R, G and B bytes are those of
    the input at every pixel and whose alpha byte is 255 at every pixel;
    it is the input itself when the input is fully opaque. *)
Theorem C3_identity_kernel (img : ImageData) :
  wf_image img ->
  let out := applyConvolution img IDENTITY_KERNEL (Options false true false) in
  width out = width img /\ height out = height img /\
  length (data out) = length (data img) /\
  (forall x y, x < width img -> y < height img ->
     (forall c, c < 3 -> channel out x y c = channel img x y c) /\
     channel out x y 3 = 255%Z) /\
  ((forall x y, x < width img -> y < height img -> channel img x y 3 = 255%Z) ->
   out = img).
Proof.
  intros Hwf. cbv zeta.
  set (o := Options false true false).
  assert (Hlen : length (data (applyConvolution img IDENTITY_KERNEL o)) = length (data img)).
  { apply convolvePass_length. }
  assert (Hpix : forall x y, x < width img -> y < height img ->
     (forall c, c < 3 -> channel (applyConvolution img IDENTITY_KERNEL o) x y c
                         = channel img x y c) /\
     channel (applyConvolution img IDENTITY_KERNEL o) x y 3 = 255%Z).
  { intros x y Hx Hy. split.
    - intros c Hc. rewrite raw_channel by done. by apply identity_pixel.
    - by apply raw_alpha. }
  split; [done|]. split; [done|]. split; [done|]. split; [done|].
  intros Hopaque.
  assert (Hdata : data (applyConvolution img IDENTITY_KERNEL o) = data img).
  { apply list_eq. intros i.
    destruct (decide (i < length (data img))) as [Hi|Hi].
    - rewrite (rd_lookup (data img)) by done.
      rewrite rd_lookup by (by rewrite Hlen). f_equal.
      pose proof (wf_length img Hwf) as Hl.
      assert (Hp : i / 4 < width img * height img) by lia.
      destruct (pixel_coordinates img Hl _ Hp) as (x & y & Hx & Hy & E).
      destruct (Hpix x y Hx Hy) as [Hrgb Ha].
      assert (Hi4 : i = (y * width img + x) * 4 + i mod 4) by lia.
      destruct (decide (i mod 4 = 3)) as [E3|E3].
      + specialize (Hopaque x y Hx Hy). unfold channel in Ha, Hopaque.
        cbn [width applyConvolution] in Ha.
        rewrite Hi4, E3. congruence.
      + specialize (Hrgb (i mod 4) ltac:(lia)). unfold channel in Hrgb.
        cbn [width applyConvolution] in Hrgb. rewrite Hi4. exact Hrgb.
    - rewrite !lookup_ge_None_2; [done|lia|lia]. }
  destruct img as [w h d]. unfold applyConvolution in *. cbn in *. by rewrite Hdata.
Qed.

(** C4.  With [useReLU] off the engine takes the absolute value of each
    convolution sum: the byte its loop stores for a channel is the clamped
    absolute value of the sum (the clamped mean of the three absolute
    values when [useGrayscale] is on), and that byte is the output when
    [normalize] is off.  The patch pipeline keeps the signed sum as the
    activated value.  With [useReLU] on both take [max(0, sum)]. *)
Theorem C4_activation_asymmetry
        (img : ImageData) (kernel : KernelMatrix) (options : ProcessingOptions)
        (x y c : nat)
        (inputPatch : list (list Q)) (patchReLU : bool) (py px : nat) :
  wf_image img ->
  x < width img -> y < height img -> c < 3 ->
  py < 2 -> px < 2 ->
  let s := component (accumulate img kernel x y) in
  let act := fun v : Q => if useReLU options then Qmax 0 v else Qabs v in
  let stored :=
    toUint8Clamp (if useGrayscale options
                  then ((act (s 0%nat) + act (s 1%nat) + act (s 2%nat)) / 3)%Q
                  else act (s c)) in
  (rd (convolvePass img kernel options) ((y * width img + x) * 4 + c) = stored /\
   (normalize options = false ->
    channel (applyConvolution img kernel options) x y c = stored)) /\
  let fm := featureMap inputPatch kernel patchReLU in
  get2 (rawMap fm) py px = patchSum inputPatch kernel py px /\
  get2 (map_ fm) py px =
  if patchReLU then Qmax 0 (get2 (rawMap fm) py px) else get2 (rawMap fm) py px.
Proof.
  intros Hwf Hx Hy Hc Hpy Hpx. cbv zeta. split.
  - assert (E : toUint8Clamp (component (pixelValue img kernel options x y) c) =
                toUint8Clamp
                  (if useGrayscale options
                   then ((( if useReLU options
                            then Qmax 0 (component (accumulate img kernel x y) 0)
                            else Qabs (component (accumulate img kernel x y) 0)) +
                          (if useReLU options
                           then Qmax 0 (component (accumulate img kernel x y) 1)
                           else Qabs (component (accumulate img kernel x y) 1)) +
                          (if useReLU options
                           then Qmax 0 (component (accumulate img kernel x y) 2)
                           else Qabs (component (accumulate img kernel x y) 2))) / 3)%Q
                   else if useReLU options
                        then Qmax 0 (component (accumulate img kernel x y) c)
                        else Qabs (component (accumulate img kernel x y) c))).
    { unfold pixelValue, grayscale, activateRGB, activate, Math_max0, Math_abs.
      destruct (accumulate img kernel x y) as [[r g] b].
      destruct (useGrayscale options), (useReLU options);
        destruct c as [|[|[|c]]]; (reflexivity || lia). }
    rewrite <- E. split.
    + rewrite (P_channel img kernel options (wf_length img Hwf)) by (done || lia).
      by rewrite bytes4_component.
    + intros Hn. by apply raw_channel.
  - destruct py as [|[|py]], px as [|[|px]]; try lia;
      destruct patchReLU; split; reflexivity.
Qed.

(* ====================================================================== *)
(** ** The patch forward pass                                              *)
(* ====================================================================== *)

Section PatchPipeline.

Local Open Scope Q_scope.

Variable inputPatch : list (list Q).
Variable kernel : KernelMatrix.
Variable useReLU : bool.

Let S (y x : nat) : Q := patchSum inputPatch kernel y x.
Let A (y x : nat) : Q := if useReLU then Math_max0 (S y x) else S y x.

(** The feature map after the four iterations of the loops. *)
Lemma featureMap_unfold :
  featureMap inputPatch kernel useReLU =
  MkFeatureMap [[A 0 0; A 0 1]; [A 1 0; A 1 1]] [[S 0 0; S 0 1]; [S 1 0; S 1 1]].
Proof. reflexivity. Qed.

Lemma featureMap_pad4x4 :
  featureMap (pad4x4 inputPatch) kernel useReLU = featureMap inputPatch kernel useReLU.
Proof. reflexivity. Qed.

Lemma pooledValue_max fm :
  pooledValue fm "max" =
  Qmax (Qmax (Qmax (get2 (map_ fm) 0 0) (get2 (map_ fm) 0 1)) (get2 (map_ fm) 1 0))
       (get2 (map_ fm) 1 1).
Proof. reflexivity. Qed.

Lemma pooledValue_average fm :
  pooledValue fm "average" =
  (0 + get2 (map_ fm) 0 0 + get2 (map_ fm) 0 1 + get2 (map_ fm) 1 0 + get2 (map_ fm) 1 1) / 4.
Proof. reflexivity. Qed.

Lemma pooledValue_other fm mode :
  mode <> "max"%string -> mode <> "average"%string ->
  pooledValue fm mode = get2 (map_ fm) 0 0.
Proof.
  intros H1 H2. unfold pooledValue.
  apply String.eqb_neq in H1, H2. by rewrite H1, H2.
Qed.

Lemma mean4_le_max4 (a b c d : Q) :
  (0 + a + b + c + d) / 4 <= Qmax (Qmax (Qmax a b) c) d.
Proof.
  pose proof (Q.le_max_l a b). pose proof (Q.le_max_r a b).
  pose proof (Q.le_max_l (Qmax a b) c). pose proof (Q.le_max_r (Qmax a b) c).
  pose proof (Q.le_max_l (Qmax (Qmax a b) c) d).
  pose proof (Q.le_max_r (Qmax (Qmax a b) c) d).
  unfold Qdiv. change (/ 4) with (1 # 4). lra.
Qed.

Lemma flatVector_length (p : Q) : length (flatVector p) = 4%nat.
Proof. reflexivity. Qed.

Lemma logits_length (fv : list Q) : length (logits fv) = 4%nat.
Proof. unfold logits. cbn [seq fold_left]. by rewrite !length_insert. Qed.

End PatchPipeline.

Section Remainder.

Local Open Scope Q_scope.

(** [a % 255]: the dividend is the remainder plus a whole multiple of
    255, the remainder is smaller than 255 in absolute value and has the
    sign of the dividend. *)
Lemma js_rem_255 (a : Q) :
  (exists k : Z, a == 255 * inject_Z k + js_rem a 255) /\
  Qabs (js_rem a 255) < 255 /\
  0 <= js_rem a 255 * a.
Proof.
  unfold js_rem, Qtrunc. set (q := a / 255).
  assert (Ha : a == 255 * q) by (unfold q; field).
  split; [|].
  { exists (if Qle_bool 0 q then Qfloor q else Qceiling q). ring. }
  destruct (Qle_bool 0 q) eqn:E.
  - apply Qle_bool_iff in E.
    pose proof (Qfloor_le q) as F1. pose proof (Qlt_floor q) as F2.
    rewrite inject_Z_plus in F2. change (inject_Z 1) with 1 in F2.
    set (t := inject_Z (Qfloor q)) in *.
    assert (R0 : 0 <= a - 255 * t) by lra.
    assert (R1 : a - 255 * t < 255) by lra.
    split.
    + apply Qabs_case; intros; lra.
    + apply Qmult_le_0_compat; lra.
  - assert (E' : q < 0).
    { apply Qnot_le_lt. intros H. apply Qle_bool_iff in H. congruence. }
    pose proof (Qle_ceiling q) as F1. pose proof (Qceiling_lt q) as F2.
    replace (Qceiling q - 1)%Z with (Qceiling q + (-1))%Z in F2 by lia.
    rewrite inject_Z_plus in F2. change (inject_Z (-1)) with (-1 # 1) in F2.
    set (t := inject_Z (Qceiling q)) in *.
    assert (R0 : a - 255 * t <= 0) by lra.
    assert (R1 : - 255 < a - 255 * t) by lra.
    split.
    + apply Qabs_case; intros; lra.
    + assert (Hm : (a - 255 * t) * a == (- (a - 255 * t)) * (- a)) by ring.
      rewrite Hm. apply Qmult_le_0_compat; lra.
Qed.

End Remainder.

(* ====================================================================== *)
(** ** Theorems on the patch forward pass                                  *)
(* ====================================================================== *)

(** C9.  For every patch, kernel and [useReLU], average pooling of the
    four activated feature-map values is at most max pooling of them. *)
Theorem C9_average_le_max (inputPatch : list (list Q)) (kernel : KernelMatrix)
        (useReLU : bool) :
  (pooledValue (featureMap inputPatch kernel useReLU) "average" <=
   pooledValue (featureMap inputPatch kernel useReLU) "max")%Q.
Proof.
  rewrite pooledValue_average, pooledValue_max. apply mean4_le_max4.
Qed.

(** C7.  The flatten stage returns exactly four values: [p], [|255 - p|],
    the remainder of [p * 1.5] by 255 (which differs from [p * 1.5] by a
    whole multiple of 255, is below 255 in absolute value and has the sign
    of [p]), and [p / 2]. *)
Theorem C7_flatten (p : Q) :
  exists v1 v2 v3 v4 : Q,
    flatVector p = [v1; v2; v3; v4] /\
    v1 = p /\
    v2 = Qabs (255 - p) /\
    (v3 = js_rem (p * (3 # 2)) 255 /\
     (exists k : Z, p * (3 # 2) == 255 * inject_Z k + v3) /\
     Qabs v3 < 255 /\ 0 <= v3 * p)%Q /\
    v4 = (p / 2)%Q.
Proof.
  exists p, (Qabs (255 - p)), (js_rem (p * (3 # 2)) 255)%Q, (p / 2)%Q.
  destruct (js_rem_255 (p * (3 # 2))) as (Hk & Hlt & Hsign).
  repeat split; try reflexivity; try done.
  assert (E : (js_rem (p * (3 # 2)) 255 * p ==
               (2 # 3) * (js_rem (p * (3 # 2)) 255 * (p * (3 # 2))))%Q) by ring.
  rewrite E. apply Qmult_le_0_compat; [done | exact Hsign].
Qed.

(** C8.  For a flatten vector of four values, the dense stage returns four
    logits, and logit [c] is [bias[c]] plus the sum over [i = 0..3] of
    [flatten[i] * weight[i][c]], with the constants [fcWeights] and
    [fcBiases] of the component. *)
Theorem C8_dense (flatVector : list Q) (c : nat) :
  length flatVector = 4 -> c < 4 ->
  length (logits flatVector) = 4 /\
  at1 (logits flatVector) c == dense_spec flatVector c.
Proof.
  intros Hl Hc.
  destruct flatVector as [|a [|b [|d [|e [|]]]]]; try discriminate.
  split; [reflexivity|].
  unfold dense_spec, Qsum.
  destruct c as [|[|[|[|c]]]]; [..|lia];
    cbn [logits seq fold_left map foldr at1 get2 fcWeights fcBiases
         lookup list_lookup insert list_insert default mbind option_bind];
    unfold Datatypes.id; ring.
Qed.

(** A render returns the results of the forward pass when the active
    index is one of 0..3 and the patch has the row [startY]; every other
    render ends in a [TypeError]. *)
Lemma render_outcome (inputPatch : list (list Q)) (kernel : KernelMatrix)
      (useReLU : bool) (poolingMode : string) (activeMapIndex : Z) :
  render inputPatch kernel useReLU poolingMode activeMapIndex =
  if ((0 <=? activeMapIndex) && (activeMapIndex <=? 3))%Z
  then match inputPatch !! Z.to_nat (startY activeMapIndex) with
       | Some _ => Returned (forward inputPatch kernel useReLU poolingMode)
       | None => Failed TypeError
       end
  else Failed TypeError.
Proof.
  unfold render. cbv zeta.
  change (fwd_featureMap (forward inputPatch kernel useReLU poolingMode))
    with (featureMap inputPatch kernel useReLU).
  rewrite featureMap_unfold. cbn [rawMap map_].
  generalize (forward inputPatch kernel useReLU poolingMode). intros result.
  destruct (Z.ltb_spec activeMapIndex 0) as [Hneg | Hpos].
  { assert (Hy : (startY activeMapIndex <? 0)%Z = true).
    { apply Z.ltb_lt. unfold startY. lia. }
    unfold index_Z at 1. rewrite Hy. cbn [property_of].
    assert (Hb : (0 <=? activeMapIndex)%Z = false) by lia.
    by rewrite Hb. }
  destruct (Z.leb_spec activeMapIndex 3) as [Hle | Hgt].
  - assert (Hb : (0 <=? activeMapIndex)%Z = true) by lia. rewrite Hb. cbn [andb].
    assert (Hcases : activeMapIndex = 0%Z \/ activeMapIndex = 1%Z \/
                     activeMapIndex = 2%Z \/ activeMapIndex = 3%Z) by lia.
    destruct Hcases as [-> | [-> | [-> | ->]]];
      [change (startY 0) with 0%Z; change (startX 0) with 0%Z
      |change (startY 1) with 0%Z; change (startX 1) with 1%Z
      |change (startY 2) with 1%Z; change (startX 2) with 0%Z
      |change (startY 3) with 1%Z; change (startX 3) with 1%Z];
      destruct inputPatch as [|row0 [|row1 rest]]; reflexivity.
  - assert (Hb : (0 <=? activeMapIndex)%Z = true) by lia. rewrite Hb. cbn [andb].
    assert (Hy : (2 <= startY activeMapIndex)%Z) by (unfold startY; lia).
    unfold index_Z at 1.
    destruct (startY activeMapIndex <? 0)%Z; [reflexivity|].
    destruct (inputPatch !! Z.to_nat (startY activeMapIndex)); [|reflexivity].
    cbn [property_of]. unfold index_Z at 1.
    destruct (Z.ltb_spec (startY activeMapIndex) 0) as [|_]; [lia|].
    rewrite lookup_ge_None_2; [reflexivity | cbn [length]; lia].
Qed.

(** C2 (amended).  A render never fails with a configuration error, and
    it checks neither the pooling mode nor the shape of the patch.  It
    returns the results of the forward pass exactly when the active index
    is one of 0..3 and the patch has the row [startY]; every other render
    fails with a [TypeError], whatever the pooling mode.  In the results,
    the feature map is the one of the patch with its missing cells read
    as 0, and with a pooling mode other than ['max'] and ['average'] the
    pooled value is the top-left activated value. *)
Theorem C2_render_outcome (inputPatch : list (list Q)) (kernel : KernelMatrix)
        (useReLU : bool) (poolingMode : string) (activeMapIndex : Z) :
  let outcome := render inputPatch kernel useReLU poolingMode activeMapIndex in
  let result := forward inputPatch kernel useReLU poolingMode in
  outcome <> Failed ConfigurationError /\
  (outcome = Returned result <->
   (0 <= activeMapIndex <= 3)%Z /\
   Z.to_nat (startY activeMapIndex) < length inputPatch) /\
  (outcome = Failed TypeError <->
   ~ (0 <= activeMapIndex <= 3)%Z \/
   length inputPatch <= Z.to_nat (startY activeMapIndex)) /\
  fwd_featureMap result = featureMap (pad4x4 inputPatch) kernel useReLU /\
  (poolingMode <> "max"%string -> poolingMode <> "average"%string ->
   fwd_pooledValue result = get2 (map_ (fwd_featureMap result)) 0 0).
Proof.
  cbv zeta. rewrite render_outcome.
  assert (Hpipe :
    fwd_featureMap (forward inputPatch kernel useReLU poolingMode) =
    featureMap (pad4x4 inputPatch) kernel useReLU /\
    (poolingMode <> "max"%string -> poolingMode <> "average"%string ->
     fwd_pooledValue (forward inputPatch kernel useReLU poolingMode) =
     get2 (map_ (fwd_featureMap (forward inputPatch kernel useReLU poolingMode))) 0 0)).
  { split.
    - symmetry. apply featureMap_pad4x4.
    - intros H1 H2. cbn [forward fwd_pooledValue fwd_featureMap].
      by apply pooledValue_other. }
  generalize dependent (forward inputPatch kernel useReLU poolingMode).
  intros result Hpipe.
  destruct ((0 <=? activeMapIndex) && (activeMapIndex <=? 3))%Z eqn:Hidx.
  - apply andb_true_iff in Hidx. destruct Hidx as [H0 H3].
    apply Z.leb_le in H0, H3.
    destruct (inputPatch !! Z.to_nat (startY activeMapIndex)) as [row|] eqn:Hrow.
    + apply lookup_lt_Some in Hrow.
      split; [discriminate|]. split; [|split; [|exact Hpipe]].
      * split; [intros _; lia | reflexivity].
      * split; [discriminate | lia].
    + apply lookup_ge_None_1 in Hrow.
      split; [discriminate|]. split; [|split; [|exact Hpipe]].
      * split; [discriminate | lia].
      * split; [intros _; by right | reflexivity].
  - apply andb_false_iff in Hidx.
    assert (Hout : ~ (0 <= activeMapIndex <= 3)%Z).
    { destruct Hidx as [H | H]; apply Z.leb_gt in H; lia. }
    split; [discriminate|]. split; [|split; [|exact Hpipe]].
    + split; [discriminate | intros [H _]; contradiction].
    + split; [intros _; by left | reflexivity].
Qed.

(* ====================================================================== *)
(** ** Softmax                                                             *)
(* ====================================================================== *)

Section Softmax.

Local Open Scope R_scope.

Implicit Types l : list R.

Lemma Rsum_acc l (a : R) : fold_left Rplus l a = a + fold_left Rplus l 0.
Proof.
  revert a. induction l as [|x l IH]; intros a; cbn [fold_left].
  - Lra.lra.
  - rewrite (IH (a + x)), (IH (0 + x)). Lra.lra.
Qed.

Lemma Rsum_scale l (k : R) (g : R -> R) :
  (forall e, g e = e * k) ->
  fold_left Rplus (map g l) 0 = fold_left Rplus l 0 * k.
Proof.
  intros Hg. induction l as [|x l IH]; cbn [map fold_left].
  - Lra.lra.
  - rewrite (Rsum_acc (map g l)), (Rsum_acc l (0 + x)), IH, Hg. Lra.lra.
Qed.

Lemma Rsum_bounds l :
  Forall (fun e => 0 < e) l ->
  Forall (fun e => e <= fold_left Rplus l 0) l /\ 0 <= fold_left Rplus l 0.
Proof.
  induction 1 as [|x l Hx Hl [IH1 IH2]]; cbn [fold_left].
  - split; [constructor | Lra.lra].
  - rewrite Rsum_acc. split; [|Lra.lra]. constructor; [Lra.lra|].
    eapply Forall_impl; [exact IH1|]. intros e He. cbn in He. Lra.lra.
Qed.

Lemma Rsum_pos l : l <> [] -> Forall (fun e => 0 < e) l -> 0 < fold_left Rplus l 0.
Proof.
  intros Hne H. destruct H as [|x l Hx Hl]; [done|].
  cbn [fold_left]. rewrite Rsum_acc.
  destruct (Rsum_bounds l Hl) as [_ H0]. Lra.lra.
Qed.

(** [Math.max(...vals)] is the greatest entry of a non-empty array. *)
Lemma Rmax_loop l (v : R) :
  v <= fold_left Rmax l v /\
  Forall (fun e => e <= fold_left Rmax l v) l /\
  (fold_left Rmax l v = v \/ In (fold_left Rmax l v) l).
Proof.
  revert v. induction l as [|x l IH]; intros v; cbn [fold_left].
  - split; [Lra.lra|]. split; [constructor | by left].
  - destruct (IH (Rmax v x)) as (I1 & I2 & I3).
    pose proof (Rmax_l v x). pose proof (Rmax_r v x).
    split; [Lra.lra|]. split; [constructor; [Lra.lra | done]|].
    destruct I3 as [I3|I3].
    + rewrite I3. unfold Rmax. destruct (Rle_dec v x); [right; by left | by left].
    + right. by right.
Qed.

Lemma Math_maxR_spec l :
  l <> [] ->
  Forall (fun e => e <= Math_maxR l) l /\ In (Math_maxR l) l.
Proof.
  destruct l as [|v l]; [done|]. intros _. cbn [Math_maxR].
  destruct (Rmax_loop l v) as (I1 & I2 & I3). split.
  - by constructor.
  - destruct I3 as [->|I3]; [by left | by right].
Qed.

Lemma probabilities_spec l :
  l <> [] ->
  let m := Math_maxR l in
  let e := fun x => exp ((x - m) / 100) in
  let S := fold_left Rplus (map e l) 0 in
  0 < S /\
  probabilities l = map (fun x => 100 * e x / S) l /\
  fold_left Rplus (probabilities l) 0 = 100 /\
  Forall (fun p => 0 <= p <= 100) (probabilities l).
Proof.
  intros Hne. cbv zeta. unfold probabilities.
  set (m := Math_maxR l). set (e := fun x => exp ((x - m) / 100)).
  set (S := fold_left Rplus (map e l) 0).
  assert (Hpos : Forall (fun v => 0 < v) (map e l)).
  { apply Forall_forall. intros v Hv. apply list_elem_of_In, in_map_iff in Hv.
    destruct Hv as (x & <- & _). apply exp_pos. }
  assert (HS : 0 < S).
  { apply Rsum_pos; [|done]. destruct l; [done | discriminate]. }
  split; [done|]. split; [|split].
  - rewrite map_map. apply map_ext. intros x. unfold e. field. Lra.lra.
  - rewrite (Rsum_scale _ (/ S * 100)) by (intros; unfold Rdiv; ring).
    fold S. field. Lra.lra.
  - destruct (Rsum_bounds _ Hpos) as [Hle _]. fold S in Hle.
    apply Forall_forall. intros p Hp. apply list_elem_of_In, in_map_iff in Hp.
    destruct Hp as (v & <- & Hv).
    rewrite Forall_forall in Hpos, Hle. apply list_elem_of_In in Hv.
    specialize (Hpos v Hv). specialize (Hle v Hv). cbn in Hpos, Hle.
    assert (0 <= v / S <= 1).
    { split.
      - apply Rlt_le, Rdiv_lt_0_compat; done.
      - apply (Rmult_le_reg_r S); [done|]. unfold Rdiv.
        rewrite Rmult_assoc, Rinv_l by Lra.lra. Lra.lra. }
    Lra.lra.
Qed.

End Softmax.

(** C6.  For every vector of four logits, with [m] their maximum, [m] is
    an entry no logit exceeds, probability [c] is
    [100 * exp((logits[c] - m) / 100)] divided by the sum of these
    exponentials, the probabilities sum to 100 and each lies in [0, 100]. *)
Theorem C6_softmax (lg : list R) :
  length lg = 4 ->
  let m := Math_maxR lg in
  let e := fun x : R => exp ((x - m) / 100) in
  let S := fold_left Rplus (map e lg) 0%R in
  (Forall (fun x => (x <= m)%R) lg /\ In m lg) /\
  probabilities lg = map (fun x => (100 * e x / S)%R) lg /\
  length (probabilities lg) = 4 /\
  fold_left Rplus (probabilities lg) 0%R = 100%R /\
  Forall (fun p => (0 <= p <= 100)%R) (probabilities lg).
Proof.
  intros Hl. cbv zeta.
  assert (Hne : lg <> []) by (destruct lg; [discriminate | done]).
  destruct (probabilities_spec lg Hne) as (_ & Hf & Hs & Hr). cbv zeta in Hf.
  split; [by apply Math_maxR_spec|]. split; [exact Hf|]. split; [|by split].
  unfold probabilities. by rewrite !length_map.
Qed.

(* ====================================================================== *)
(** ** Counterexamples, instances and evaluations                          *)
(* ====================================================================== *)

Lemma wf_img2x2 : wf_image img2x2.
Proof.
  split; [reflexivity|]. unfold img2x2, data.
  repeat (constructor; [unfold byte_range; lia|]). constructor.
Defined.

Lemma wf_img1x1_translucent : wf_image img1x1_translucent.
Proof.
  split; [reflexivity|]. unfold img1x1_translucent, data.
  repeat (constructor; [unfold byte_range; lia|]). constructor.
Defined.

(** C3, as stated, fails on a translucent pixel: the alpha byte 128 of the
    input comes back as 255. *)
Lemma C3_counterexample :
  wf_image img1x1_translucent /\
  applyConvolution img1x1_translucent IDENTITY_KERNEL (Options false true false)
  <> img1x1_translucent.
Proof.
  split; [exact wf_img1x1_translucent|].
  intros H. apply (f_equal data) in H. vm_compute in H. discriminate H.
Qed.

Lemma C3_witness :
  wf_image img2x2 /\
  (forall c, c < 3 -> channel (applyConvolution img2x2 IDENTITY_KERNEL (Options false true false)) 1 0 c
                      = channel img2x2 1 0 c) /\
  applyConvolution img2x2 IDENTITY_KERNEL (Options false true false) = img2x2.
Proof.
  split; [exact wf_img2x2|].
  destruct (C3_identity_kernel img2x2 wf_img2x2) as (_ & _ & _ & Hpix & Hopaque).
  split.
  - apply (Hpix 1 0); cbn; lia.
  - apply Hopaque. intros x y Hx Hy. cbn in Hx, Hy.
    destruct x as [|[|x]], y as [|[|y]]; try lia; reflexivity.
Defined.

(** C2, as stated, fails twice: an unrecognised pooling mode and a patch
    of the wrong shape both give a result, not a configuration error. *)
Lemma C2_counterexample :
  ~ (render patch128 BOX_BLUR true "median" 0 = Failed ConfigurationError <->
     ("median" <> "max" /\ "median" <> "average")%string \/ ~ patch_4x4 patch128) /\
  ~ (render [[7%Q]] BOX_BLUR true "max" 0 = Failed ConfigurationError <->
     ("max" <> "max" /\ "max" <> "average")%string \/ ~ patch_4x4 [[7%Q]]).
Proof.
  split.
  - intros [_ H].
    assert (E : render patch128 BOX_BLUR true "median" 0 = Failed ConfigurationError).
    { apply H. left. split; discriminate. }
    rewrite render_outcome in E. discriminate E.
  - intros [_ H].
    assert (E : render [[7%Q]] BOX_BLUR true "max" 0 = Failed ConfigurationError).
    { apply H. right. intros [Hl _]. discriminate Hl. }
    rewrite render_outcome in E. discriminate E.
Qed.

(** An unrecognised mode on a one-cell patch gives the results of the
    forward pass at the first two active indices, and a [TypeError] at
    the last two, where [startY] is 1; the empty patch gives a
    [TypeError] with a recognised mode as well. *)
Lemma C2_witness :
  render [[7%Q]] BOX_BLUR true "median" 1 =
    Returned (forward [[7%Q]] BOX_BLUR true "median") /\
  render [[7%Q]] BOX_BLUR true "median" 2 = Failed TypeError /\
  render [] BOX_BLUR true "max" 0 = Failed TypeError /\
  fwd_pooledValue (forward [[7%Q]] BOX_BLUR true "median") =
    get2 (map_ (fwd_featureMap (forward [[7%Q]] BOX_BLUR true "median"))) 0 0.
Proof.
  destruct (C2_render_outcome [[7%Q]] BOX_BLUR true "median" 1) as (_ & Hr & _ & _ & Hp).
  destruct (C2_render_outcome [[7%Q]] BOX_BLUR true "median" 2) as (_ & _ & Ht & _).
  destruct (C2_render_outcome [] BOX_BLUR true "max" 0) as (_ & _ & Ht0 & _).
  split; [apply Hr; split; [lia | vm_compute; lia]|].
  split; [apply Ht; right; vm_compute; lia|].
  split; [apply Ht0; right; vm_compute; lia|].
  apply Hp; discriminate.
Defined.

Lemma C4_witness :
  wf_image img2x2 /\
  0 < width img2x2 /\ 0 < height img2x2 /\ 1 < 3 /\ 1 < 2 /\ 0 < 2 /\
  rd (convolvePass img2x2 SOBEL_HORIZONTAL abs_raw) ((0 * width img2x2 + 0) * 4 + 1) =
  toUint8Clamp (Qabs (component (accumulate img2x2 SOBEL_HORIZONTAL 0 0) 1)) /\
  channel (applyConvolution img2x2 SOBEL_HORIZONTAL abs_raw) 0 0 1 =
  toUint8Clamp (Qabs (component (accumulate img2x2 SOBEL_HORIZONTAL 0 0) 1)) /\
  get2 (map_ (featureMap patch_ramp SOBEL_HORIZONTAL false)) 1 0 =
  get2 (rawMap (featureMap patch_ramp SOBEL_HORIZONTAL false)) 1 0.
Proof.
  split; [exact wf_img2x2|].
  split; [cbn; lia|]. split; [cbn; lia|]. split; [lia|]. split; [lia|]. split; [lia|].
  destruct (C4_activation_asymmetry img2x2 SOBEL_HORIZONTAL abs_raw 0 0 1
              patch_ramp false 1 0 wf_img2x2)
    as ((Hs & He) & _ & Hm); [cbn; lia | cbn; lia | lia | lia | lia |].
  split; [exact Hs|]. split; [exact (He eq_refl) | exact Hm].
Defined.

Lemma C5_witness :
  wf_image img2x2 /\ 0 < width img2x2 * height img2x2 /\
  normalize ReLU_normalized = true /\
  (exists x y c, x < width img2x2 /\ y < height img2x2 /\ c < 3 /\
     channel (applyConvolution img2x2 IDENTITY_KERNEL ReLU_normalized) x y c = 0%Z) /\
  (exists x y c, x < width img2x2 /\ y < height img2x2 /\ c < 3 /\
     channel (applyConvolution img2x2 IDENTITY_KERNEL ReLU_normalized) x y c = 255%Z).
Proof.
  split; [exact wf_img2x2|]. split; [cbn; lia|]. split; [reflexivity|].
  assert (Hne : 0 < width img2x2 * height img2x2) by (cbn; lia).
  destruct (C5_normalize_full_range img2x2 IDENTITY_KERNEL ReLU_normalized
              wf_img2x2 Hne eq_refl) as [_ H].
  assert (Hnf : ~ rgb_flat (applyConvolution img2x2 IDENTITY_KERNEL
                              (with_normalize false ReLU_normalized))).
  { intros Hflat.
    specialize (Hflat 0 0 0 0 0 1 ltac:(cbn; lia) ltac:(cbn; lia) ltac:(lia)
                      ltac:(cbn; lia) ltac:(cbn; lia) ltac:(lia)).
    vm_compute in Hflat. discriminate Hflat. }
  destruct (H Hnf) as (_ & Hmin & Hmax). split; [exact Hmin | exact Hmax].
Defined.

Lemma C6_witness :
  length sample_logits = 4 /\
  fold_left Rplus (probabilities sample_logits) 0%R = 100%R /\
  Forall (fun p => (0 <= p <= 100)%R) (probabilities sample_logits).
Proof.
  split; [reflexivity|].
  destruct (C6_softmax sample_logits eq_refl) as (_ & _ & _ & Hs & Hr).
  split; [exact Hs | exact Hr].
Defined.

Lemma C8_witness :
  length (flatVector 128) = 4 /\ 2 < 4 /\
  length (logits (flatVector 128)) = 4 /\
  at1 (logits (flatVector 128)) 2 == dense_spec (flatVector 128) 2.
Proof.
  split; [reflexivity|]. split; [lia|].
  apply (C8_dense (flatVector 128) 2); [reflexivity | lia].
Defined.

Lemma C10_witness :
  wf_image img2x2 /\ useGrayscale gray_normalized = true /\
  1 < width img2x2 /\ 1 < height img2x2 /\
  channel (applyConvolution img2x2 SOBEL_HORIZONTAL gray_normalized) 1 1 0 =
  channel (applyConvolution img2x2 SOBEL_HORIZONTAL gray_normalized) 1 1 1 /\
  channel (applyConvolution img2x2 SOBEL_HORIZONTAL gray_normalized) 1 1 1 =
  channel (applyConvolution img2x2 SOBEL_HORIZONTAL gray_normalized) 1 1 2.
Proof.
  split; [exact wf_img2x2|]. split; [reflexivity|].
  split; [cbn; lia|]. split; [cbn; lia|].
  apply (C10_grayscale_channels_equal img2x2 SOBEL_HORIZONTAL gray_normalized 1 1);
    [exact wf_img2x2 | reflexivity | cbn; lia | cbn; lia].
Defined.

(** The identity kernel on the opaque sample image. *)
Example identity_on_img2x2 :
  data (applyConvolution img2x2 IDENTITY_KERNEL ReLU_raw) = data img2x2.
Proof. vm_compute. reflexivity. Qed.

(** The alpha byte of the translucent sample pixel becomes 255. *)
Example identity_on_translucent :
  data (applyConvolution img1x1_translucent IDENTITY_KERNEL ReLU_raw) = [10; 20; 30; 255]%Z.
Proof. vm_compute. reflexivity. Qed.

(** Sobel with the absolute-value branch; the sums above 255 saturate. *)
Example sobel_abs_on_img2x2 :
  data (applyConvolution img2x2 SOBEL_HORIZONTAL abs_raw) =
  [240; 255; 255; 255;  255; 255; 255; 255;  60; 90; 120; 255;  90; 120; 150; 255]%Z.
Proof. vm_compute. reflexivity. Qed.

(** Normalisation stretches the identity output 10..120 to 0..255. *)
Example normalized_identity_on_img2x2 :
  data (applyConvolution img2x2 IDENTITY_KERNEL ReLU_normalized) =
  [0; 23; 46; 255;  70; 93; 116; 255;  139; 162; 185; 255;  209; 232; 255; 255]%Z.
Proof. vm_compute. reflexivity. Qed.

(** A box kernel of weight sum 9 (all ones) on a pixel of value 10:
    the sum over the four pixels of the 2x2 image is stored undivided. *)
Example undivided_sum :
  kSum (Kernel3 (Row3 1 1 1) (Row3 1 1 1) (Row3 1 1 1)) == 9 /\
  component (accumulate img2x2 (Kernel3 (Row3 1 1 1) (Row3 1 1 1) (Row3 1 1 1)) 0 0) 0 == 220.
Proof. split; vm_compute; reflexivity. Qed.

(** The unrecognised mode 'median' pools to the top-left value. *)
Example median_pools_top_left :
  pooledValue (featureMap patch_ramp SOBEL_HORIZONTAL false) "max" == 940 /\
  pooledValue (featureMap patch_ramp SOBEL_HORIZONTAL false) "average" == 590 /\
  pooledValue (featureMap patch_ramp SOBEL_HORIZONTAL false) "median" == 240.
Proof. repeat split; vm_compute; reflexivity. Qed.

(** The remainder of a negative pooled value keeps its sign. *)
Example flatVector_negative :
  Forall2 Qeq (flatVector (-10)) [-10; 265; -15; -5]%Q.
Proof. repeat constructor; vm_compute; reflexivity. Qed.

(** The all-128 patch under the box blur. *)
Example box_blur_patch128 :
  pooledValue (featureMap patch128 BOX_BLUR true) "max" == 128 /\
  Forall2 Qeq (flatVector 128) [128; 127; 192; 64]%Q /\
  Forall2 Qeq (logits (flatVector 128)) [164; 261 # 10; 1729 # 10; 757 # 10]%Q.
Proof. repeat split; repeat constructor; vm_compute; reflexivity. Qed.

(* ====================================================================== *)
(** ** Further properties of applyConvolution                              *)
(* ====================================================================== *)

Section BufferInvariants.

Implicit Types out : list Z.

Lemma storePixel_bytes i p out :
  Forall byte_range out -> Forall byte_range (storePixel i p out).
Proof.
  intros H. destruct p as [[r g] b]. unfold storePixel.
  repeat apply Forall_insert; try apply toUint8Clamp_range; done.
Qed.

Lemma pixelLoop_bytes F ps out :
  Forall byte_range out -> Forall byte_range (pixelLoop F ps out).
Proof.
  revert out. induction ps as [|p ps IH]; intros out H; [done|].
  unfold pixelLoop. cbn [fold_left]. apply IH. by apply storePixel_bytes.
Qed.

Lemma convolvePass_bytes img kernel options :
  Forall byte_range (convolvePass img kernel options).
Proof.
  rewrite convolvePass_flat. apply pixelLoop_bytes.
  apply Forall_replicate. unfold byte_range. lia.
Qed.

Lemma rescaleAt_bytes mn rg out i :
  Forall byte_range out -> Forall byte_range (rescaleAt mn rg out i).
Proof.
  intros H. unfold rescaleAt. cbv zeta.
  repeat apply Forall_insert; try apply toUint8Clamp_range; done.
Qed.

Lemma rescalePass_length mn rg out : length (rescalePass mn rg out) = length out.
Proof. unfold rescalePass. apply rescaleLoop_length. Qed.

Lemma rescaleLoop_bytes mn rg idxs out :
  Forall byte_range out -> Forall byte_range (fold_left (rescaleAt mn rg) idxs out).
Proof.
  revert out. induction idxs as [|i idxs IH]; intros out H; [done|].
  cbn [fold_left]. apply IH. by apply rescaleAt_bytes.
Qed.

Lemma normalizePass_length out : length (normalizePass out) = length out.
Proof.
  unfold normalizePass. destruct (scanMinMax out) as [mn mx].
  destruct (mx - mn >? 0)%Z; [apply rescalePass_length | done].
Qed.

Lemma normalizePass_bytes out :
  Forall byte_range out -> Forall byte_range (normalizePass out).
Proof.
  intros H. unfold normalizePass. destruct (scanMinMax out) as [mn mx].
  destruct (mx - mn >? 0)%Z; [|done]. unfold rescalePass. by apply rescaleLoop_bytes.
Qed.

Lemma applyConvolution_length img kernel options :
  length (data (applyConvolution img kernel options)) = length (data img).
Proof.
  unfold applyConvolution. cbn [data].
  destruct (normalize options).
  - rewrite normalizePass_length. apply convolvePass_length.
  - apply convolvePass_length.
Qed.

Lemma applyConvolution_bytes img kernel options :
  Forall byte_range (data (applyConvolution img kernel options)).
Proof.
  unfold applyConvolution. cbn [data].
  destruct (normalize options).
  - apply normalizePass_bytes, convolvePass_bytes.
  - apply convolvePass_bytes.
Qed.

End BufferInvariants.

(** X1.  Whatever the image, the kernel and the options, the result has
    the width and the height of the input and a buffer of the same length;
    an image without bytes gives a result without bytes. *)
Theorem X1_output_shape (img : ImageData) (kernel : KernelMatrix)
        (options : ProcessingOptions) :
  width (applyConvolution img kernel options) = width img /\
  height (applyConvolution img kernel options) = height img /\
  length (data (applyConvolution img kernel options)) = length (data img) /\
  (data img = [] -> data (applyConvolution img kernel options) = []).
Proof.
  split; [reflexivity|]. split; [reflexivity|].
  split; [apply applyConvolution_length|].
  intros E. apply length_zero_iff_nil. rewrite applyConvolution_length, E. done.
Qed.

(** X2.  Every byte of the result is in 0..255, and the result of a
    well-formed image is well-formed: it can be convolved again. *)
Theorem X2_output_well_formed (img : ImageData) (kernel : KernelMatrix)
        (options : ProcessingOptions) :
  Forall byte_range (data (applyConvolution img kernel options)) /\
  (wf_image img -> wf_image (applyConvolution img kernel options)).
Proof.
  split; [apply applyConvolution_bytes|].
  intros [Hl _]. split; [|apply applyConvolution_bytes].
  rewrite applyConvolution_length. exact Hl.
Qed.

Lemma X2_witness :
  wf_image img2x2 /\ wf_image (applyConvolution img2x2 SOBEL_HORIZONTAL gray_normalized).
Proof.
  split; [exact wf_img2x2|].
  apply (X2_output_well_formed img2x2 SOBEL_HORIZONTAL gray_normalized). exact wf_img2x2.
Defined.

Section OutputEquality.

Lemma output_alpha img kernel options x y :
  wf_image img -> x < width img -> y < height img ->
  channel (applyConvolution img kernel options) x y 3 = 255%Z.
Proof.
  intros Hwf Hx Hy. destruct (normalize options) eqn:Hn; [|by apply raw_alpha].
  pose proof (wf_length img Hwf) as Hlen.
  unfold channel, applyConvolution. rewrite Hn. cbn [data width].
  assert (Hraw : rd (convolvePass img kernel options) ((y * width img + x) * 4 + 3) = 255%Z).
  { rewrite (P_channel img kernel options Hlen) by (done || lia). by rewrite bytes4_alpha. }
  unfold normalizePass. destruct (scanMinMax _) as [mn mx].
  destruct (mx - mn >? 0)%Z; [|exact Hraw].
  replace ((y * width img + x) * 4 + 3) with (4 * (y * width img + x) + 3) in * by lia.
  rewrite (rescalePass_channel img kernel options Hlen) by (lia || nia).
  case_decide; [exact Hraw | lia].
Qed.

(** Two buffers of the same pixel count with the same four bytes at every
    pixel are the same buffer. *)
Lemma data_eq_by_channels (a b : ImageData) :
  width a = width b -> height a = height b ->
  length (data a) = 4 * (width a * height a) ->
  length (data b) = 4 * (width b * height b) ->
  (forall x y c, x < width a -> y < height a -> c < 4 ->
                 channel a x y c = channel b x y c) ->
  data a = data b.
Proof.
  intros Hw Hh Hla Hlb Hc. apply list_eq. intros i.
  destruct (decide (i < length (data a))) as [Hi|Hi].
  - rewrite (rd_lookup (data a)) by done.
    rewrite (rd_lookup (data b)) by (rewrite Hlb, <- Hw, <- Hh, <- Hla; done).
    f_equal.
    assert (Hp : i / 4 < width a * height a) by lia.
    destruct (pixel_coordinates a Hla _ Hp) as (x & y & Hx & Hy & E).
    specialize (Hc x y (i mod 4) Hx Hy ltac:(lia)). unfold channel in Hc.
    rewrite <- Hw in Hc.
    replace i with ((y * width a + x) * 4 + i mod 4) by lia. exact Hc.
  - rewrite !lookup_ge_None_2; [done | rewrite Hlb, <- Hw, <- Hh, <- Hla; lia | lia].
Qed.

Lemma storePixel_same_bytes i p q (out : list Z) :
  bytes4 p = bytes4 q -> storePixel i p out = storePixel i q out.
Proof.
  destruct p as [[r g] b], q as [[r' g'] b']. unfold bytes4, storePixel.
  intros E. injection E as -> -> ->. done.
Qed.

Lemma pixelLoop_ext F G ps (out : list Z) :
  (forall p, In p ps -> bytes4 (F p) = bytes4 (G p)) ->
  pixelLoop F ps out = pixelLoop G ps out.
Proof.
  revert out. induction ps as [|p ps IH]; intros out H; [done|].
  unfold pixelLoop. cbn [fold_left].
  rewrite (storePixel_same_bytes _ (F p) (G p)) by (apply H; by left).
  apply IH. intros p' Hp'. apply H. by right.
Qed.

(** Two runs of the convolution loops that store the same bytes at every
    pixel of the image leave the same buffer. *)
Lemma convolvePass_ext img img' kernel kernel' options options' :
  width img = width img' -> height img = height img' ->
  length (data img) = length (data img') ->
  (forall x y, x < width img -> y < height img ->
     bytes4 (pixelValue img kernel options x y) =
     bytes4 (pixelValue img' kernel' options' x y)) ->
  convolvePass img kernel options = convolvePass img' kernel' options'.
Proof.
  intros Hw Hh Hl H. rewrite !convolvePass_flat, <- Hw, <- Hh, <- Hl.
  apply pixelLoop_ext. intros p Hp. apply in_seq in Hp.
  assert (Hw0 : width img <> 0) by (intros E; rewrite E in Hp; lia).
  apply H.
  - by apply Nat.mod_upper_bound.
  - apply Nat.Div0.div_lt_upper_bound. lia.
Qed.

Lemma applyConvolution_ext img img' kernel kernel' options options' :
  width img = width img' -> height img = height img' ->
  length (data img) = length (data img') ->
  normalize options = normalize options' ->
  (forall x y, x < width img -> y < height img ->
     bytes4 (pixelValue img kernel options x y) =
     bytes4 (pixelValue img' kernel' options' x y)) ->
  applyConvolution img kernel options = applyConvolution img' kernel' options'.
Proof.
  intros Hw Hh Hl Hn H. unfold applyConvolution.
  rewrite (convolvePass_ext img img' kernel kernel' options options' Hw Hh Hl H).
  by rewrite Hw, Hh, Hn.
Qed.

Lemma bytes4_Qeq (p q : RGB) :
  p.1.1 == q.1.1 -> p.1.2 == q.1.2 -> p.2 == q.2 -> bytes4 p = bytes4 q.
Proof.
  destruct p as [[r g] b], q as [[r' g'] b']. cbn [fst snd]. intros Hr Hg Hb.
  unfold bytes4.
  by rewrite (toUint8Clamp_comp _ _ Hr), (toUint8Clamp_comp _ _ Hg), (toUint8Clamp_comp _ _ Hb).
Qed.

End OutputEquality.

(** X3.  For a well-formed image the alpha byte of every pixel of the
    result is 255, whatever the options (the normalisation pass included)
    and whatever the alpha bytes of the input. *)
Theorem X3_output_opaque (img : ImageData) (kernel : KernelMatrix)
        (options : ProcessingOptions) (x y : nat) :
  wf_image img -> x < width img -> y < height img ->
  channel (applyConvolution img kernel options) x y 3 = 255%Z.
Proof. apply output_alpha. Qed.

Lemma X3_witness :
  wf_image img1x1_translucent /\ 0 < width img1x1_translucent /\
  0 < height img1x1_translucent /\
  channel (applyConvolution img1x1_translucent SOBEL_HORIZONTAL gray_normalized) 0 0 3 = 255%Z.
Proof.
  split; [exact wf_img1x1_translucent|]. split; [cbn; lia|]. split; [cbn; lia|].
  apply (X3_output_opaque img1x1_translucent SOBEL_HORIZONTAL gray_normalized 0 0);
    [exact wf_img1x1_translucent | cbn; lia | cbn; lia].
Defined.

Section ConvolutionFacts.

Local Open Scope Q_scope.

Variable img : ImageData.
Variable kernel : KernelMatrix.

Lemma in_bounds_iff (px py : Z) :
  out_of_bounds img px py = false <->
  (0 <= px < Z.of_nat (width img))%Z /\ (0 <= py < Z.of_nat (height img))%Z.
Proof.
  unfold out_of_bounds. rewrite !Z.geb_leb, !orb_false_iff.
  rewrite !Z.ltb_ge, !Z.leb_gt. lia.
Qed.

Lemma input_at_channel (px py : Z) (c : nat) :
  (0 <= px)%Z -> (0 <= py)%Z ->
  input_at img py px c = channel img (Z.to_nat px) (Z.to_nat py) c.
Proof.
  intros Hx Hy. unfold input_at, channel. f_equal. nia.
Qed.

Lemma Qsum_nonneg (l : list Q) : Forall (fun q => 0 <= q) l -> 0 <= Qsum l.
Proof.
  induction 1 as [|q l Hq Hl IH]; unfold Qsum in *; cbn [foldr]; [apply Qle_refl|].
  lra.
Qed.

Lemma Qsum_map_filter_ext {A} (t t' : A -> Q) (f : A -> bool) (L : list A) :
  (forall a, In a L -> f a = true -> t a == t' a) ->
  Qsum (map t (List.filter f L)) == Qsum (map t' (List.filter f L)).
Proof.
  induction L as [|a L IH]; intros H; [done|]. cbn [List.filter].
  assert (IH' : Qsum (map t (List.filter f L)) == Qsum (map t' (List.filter f L))).
  { apply IH. intros b Hb. apply H. by right. }
  destruct (f a) eqn:E; [|exact IH'].
  unfold Qsum in *. cbn [map foldr]. rewrite IH', (H a) by (done || by left). done.
Qed.

Lemma kernel_at_in_flat (i j : Z) : In (kernel_at kernel i j) (kernel_flat kernel).
Proof.
  unfold kernel_at, kernel_row, row_at, kernel_flat.
  destruct (i =? 0)%Z, (i =? 1)%Z, (j =? 0)%Z, (j =? 1)%Z; cbn; tauto.
Qed.

Lemma rd_nonneg (i : nat) : Forall byte_range (data img) -> (0 <= rd (data img) i)%Z.
Proof.
  intros H. unfold rd. destruct (data img !! i) as [v|] eqn:E; [|done].
  rewrite Forall_lookup in H. apply (H i v E).
Qed.

(** With weights that are not negative, no convolution sum is negative. *)
Lemma conv_sum_nonneg (x y ch : nat) :
  Forall byte_range (data img) ->
  Forall (fun q => 0 <= q) (kernel_flat kernel) ->
  0 <= conv_sum img kernel x y ch.
Proof.
  intros Hb Hk. unfold conv_sum. apply Qsum_nonneg.
  apply Forall_forall. intros q Hq. apply list_elem_of_In, in_map_iff in Hq.
  destruct Hq as (kk & <- & _).
  apply Qmult_le_0_compat.
  - rewrite Forall_forall in Hk. apply Hk, list_elem_of_In, kernel_at_in_flat.
  - change 0 with (inject_Z 0). rewrite <- Zle_Qle. unfold input_at. by apply rd_nonneg.
Qed.

(** On an image whose three colour bytes agree at every pixel, the three
    convolution sums agree. *)
Lemma conv_sum_gray (x y ch ch' : nat) :
  (forall x' y', (x' < width img)%nat -> (y' < height img)%nat ->
     channel img x' y' ch = channel img x' y' ch') ->
  conv_sum img kernel x y ch == conv_sum img kernel x y ch'.
Proof.
  intros Hg. unfold conv_sum. apply Qsum_map_filter_ext.
  intros kk _ Hin. apply negb_true_iff, in_bounds_iff in Hin. destruct Hin as [Hx Hy].
  rewrite !input_at_channel by lia. rewrite Hg by lia. done.
Qed.

(** The nine neighbours of an inner pixel are inside the image. *)
Lemma inner_neighbours (x y : nat) :
  (1 <= x)%nat -> (x + 1 < width img)%nat -> (1 <= y)%nat -> (y + 1 < height img)%nat ->
  List.filter
    (fun kk : Z * Z => negb (out_of_bounds img (Z.of_nat x + kk.2) (Z.of_nat y + kk.1)))
    neighbourhood = neighbourhood.
Proof.
  intros Hx0 Hx1 Hy0 Hy1. unfold neighbourhood. cbn [List.filter fst snd].
  rewrite !(proj2 (in_bounds_iff _ _)) by lia. done.
Qed.

(** On a constant image the convolution sum of an inner pixel is the
    weight sum of the kernel times the constant. *)
Lemma conv_sum_constant (x y ch : nat) (v : Z) :
  (1 <= x)%nat -> (x + 1 < width img)%nat -> (1 <= y)%nat -> (y + 1 < height img)%nat ->
  (forall x' y', (x' < width img)%nat -> (y' < height img)%nat -> channel img x' y' ch = v) ->
  conv_sum img kernel x y ch == kSum kernel * inject_Z v.
Proof.
  intros Hx0 Hx1 Hy0 Hy1 Hv. unfold conv_sum. rewrite inner_neighbours by done.
  unfold neighbourhood, Qsum. cbn [map foldr fst snd].
  rewrite !input_at_channel by lia. rewrite !Hv by lia.
  unfold kSum, kernel_flat, kernel_at, kernel_row, row_at. cbn [fold_left].
  repeat match goal with
         | |- context [(?a + 1 =? ?b)%Z] =>
             let r := eval vm_compute in (a + 1 =? b)%Z in
             change (a + 1 =? b)%Z with r
         end.
  cbv iota. ring.
Qed.

End ConvolutionFacts.

Section Monotone.

Local Open Scope Q_scope.

Lemma Qle_bool_false (a b : Q) : Qle_bool a b = false -> b < a.
Proof.
  intros E. apply Qnot_le_lt. intros H. apply Qle_bool_iff in H. congruence.
Qed.

(** The clamped store keeps the order of the values. *)
Lemma toUint8Clamp_mono (q q' : Q) : q <= q' -> (toUint8Clamp q <= toUint8Clamp q')%Z.
Proof.
  intros Hle.
  pose proof (toUint8Clamp_range q) as [Hq0 Hq1].
  pose proof (toUint8Clamp_range q') as [Hq0' Hq1'].
  unfold toUint8Clamp in *.
  destruct (Qle_bool q 0) eqn:E0; [done|]. apply Qle_bool_false in E0.
  destruct (Qle_bool q' 0) eqn:E0'; [apply Qle_bool_iff in E0'; lra|].
  destruct (Qle_bool 255 q') eqn:E1'; [done|]. apply Qle_bool_false in E1'.
  destruct (Qle_bool 255 q) eqn:E1; [apply Qle_bool_iff in E1; lra|].
  cbv zeta in *.
  pose proof (Qfloor_resp_le _ _ Hle) as Hf.
  destruct (decide (Qfloor q = Qfloor q')) as [Ef|Ef].
  - rewrite <- Ef in *. set (f := Qfloor q) in *.
    destruct (Qcompare_spec (inject_Z f + (1 # 2)) q) as [C|C|C];
      destruct (Qcompare_spec (inject_Z f + (1 # 2)) q') as [C'|C'|C'];
      try destruct (Z.even f); try lia; lra.
  - assert (Hlt : (Qfloor q + 1 <= Qfloor q')%Z) by lia.
    destruct (inject_Z (Qfloor q) + (1 # 2) ?= q);
      destruct (inject_Z (Qfloor q') + (1 # 2) ?= q');
      try destruct (Z.even (Qfloor q)); try destruct (Z.even (Qfloor q')); lia.
Qed.

Lemma rescale_mono (mn rg v v' : Z) :
  (0 < rg)%Z -> (v <= v')%Z -> (rescale mn rg v <= rescale mn rg v')%Z.
Proof.
  intros Hr Hv. unfold rescale. apply toUint8Clamp_mono.
  apply Qmult_le_compat_r; [|done]. unfold Qdiv. apply Qmult_le_compat_r.
  - rewrite <- Zle_Qle. lia.
  - apply Qinv_le_0_compat. change 0 with (inject_Z 0). rewrite <- Zle_Qle. lia.
Qed.

Lemma relu_le_abs (s : Q) : Math_max0 s <= Math_abs s.
Proof.
  unfold Math_max0, Math_abs. apply Q.max_lub; [apply Qabs_nonneg | apply Qle_Qabs].
Qed.

End Monotone.

Section AlphaIndependence.

Variables img img' : ImageData.
Variable kernel : KernelMatrix.

Hypothesis Hw : width img = width img'.
Hypothesis Hh : height img = height img'.
Hypothesis Hrgb :
  forall x y c, x < width img -> y < height img -> c < 3 ->
                channel img x y c = channel img' x y c.

Lemma tap_same_rgb x y ky kx acc :
  tap img kernel x y ky kx acc = tap img' kernel x y ky kx acc.
Proof.
  unfold tap. destruct acc as [[r g] b]. rewrite <- Hw, <- Hh.
  destruct (_ && _ && _ && _)%bool eqn:E; [|done].
  rewrite !andb_true_iff in E. destruct E as [[[E1 E2] E3] E4].
  apply Z.geb_le in E1, E3. apply Z.ltb_lt in E2, E4.
  set (px := (Z.of_nat x + kx)%Z) in *. set (py := (Z.of_nat y + ky)%Z) in *.
  pose proof (input_at_channel img px py 0 ltac:(lia) ltac:(lia)) as H0.
  pose proof (input_at_channel img px py 1 ltac:(lia) ltac:(lia)) as H1.
  pose proof (input_at_channel img px py 2 ltac:(lia) ltac:(lia)) as H2.
  pose proof (input_at_channel img' px py 0 ltac:(lia) ltac:(lia)) as H0'.
  pose proof (input_at_channel img' px py 1 ltac:(lia) ltac:(lia)) as H1'.
  pose proof (input_at_channel img' px py 2 ltac:(lia) ltac:(lia)) as H2'.
  unfold input_at in *. rewrite Nat.add_0_r in H0, H0'. rewrite <- Hw in H0', H1', H2'.
  rewrite H0, H1, H2, H0', H1', H2'.
  rewrite !Hrgb by lia. done.
Qed.

Lemma accumulate_same_rgb x y : accumulate img kernel x y = accumulate img' kernel x y.
Proof.
  unfold accumulate, offsets. cbn [fold_left]. by rewrite !tap_same_rgb.
Qed.

Lemma pixelValue_same_rgb options x y :
  pixelValue img kernel options x y = pixelValue img' kernel options x y.
Proof. unfold pixelValue. by rewrite accumulate_same_rgb. Qed.

End AlphaIndependence.

Section OptionFacts.

Local Open Scope Q_scope.

Lemma activate_comp options (s s' : Q) : s == s' -> activate options s == activate options s'.
Proof.
  intros E. unfold activate, Math_max0, Math_abs.
  destruct (useReLU options); [by apply Q.max_compat | by apply Qabs_wd].
Qed.

Lemma activate_nonneg_any options options' (s : Q) :
  0 <= s -> activate options s == activate options' s.
Proof.
  intros Hs. unfold activate, Math_max0, Math_abs.
  destruct (useReLU options), (useReLU options');
    rewrite ?Q.max_r, ?Qabs_pos by done; done.
Qed.

Lemma pixelValue_components img kernel options x y :
  let acc := accumulate img kernel x y in
  let a := fun c => activate options (component acc c) in
  forall c, (c < 3)%nat ->
    component (pixelValue img kernel options x y) c =
    if useGrayscale options then (a 0%nat + a 1%nat + a 2%nat) / 3 else a c.
Proof.
  cbv zeta. intros c Hc. unfold pixelValue, grayscale, activateRGB.
  destruct (accumulate img kernel x y) as [[r g] b].
  destruct (useGrayscale options); destruct c as [|[|[|c]]]; (reflexivity || lia).
Qed.

Lemma bytes4_by_component (p q : RGB) :
  (forall c, (c < 3)%nat -> component p c == component q c) -> bytes4 p = bytes4 q.
Proof.
  intros H. apply bytes4_Qeq.
  - apply (H 0%nat). lia.
  - apply (H 1%nat). lia.
  - apply (H 2%nat). lia.
Qed.

Lemma component_conv_sum img kernel x y c :
  (c < 3)%nat -> component (accumulate img kernel x y) c == conv_sum img kernel x y c.
Proof.
  intros Hc. destruct (accumulate_conv_sum img kernel x y) as (H0 & H1 & H2).
  destruct c as [|[|[|c]]]; [done..|lia].
Qed.

End OptionFacts.

(** X4.  The alpha bytes of the input are never read: two well-formed
    images of the same size with the same R, G and B bytes give the very
    same result. *)
Theorem X4_input_alpha_ignored (img img' : ImageData) (kernel : KernelMatrix)
        (options : ProcessingOptions) :
  wf_image img -> wf_image img' ->
  width img = width img' -> height img = height img' ->
  (forall x y c, x < width img -> y < height img -> c < 3 ->
                 channel img x y c = channel img' x y c) ->
  applyConvolution img kernel options = applyConvolution img' kernel options.
Proof.
  intros [Hl _] [Hl' _] Hw Hh Hrgb.
  apply applyConvolution_ext; try done.
  - rewrite Hl, Hl', Hw, Hh. done.
  - intros x y Hx Hy. by rewrite (pixelValue_same_rgb img img' kernel Hw Hh Hrgb).
Qed.

Lemma wf_img2x2_faded : wf_image img2x2_faded.
Proof.
  split; [reflexivity|]. unfold img2x2_faded, data.
  repeat (constructor; [unfold byte_range; lia|]). constructor.
Defined.

Lemma X4_witness :
  wf_image img2x2 /\ wf_image img2x2_faded /\
  applyConvolution img2x2 SOBEL_HORIZONTAL abs_raw =
  applyConvolution img2x2_faded SOBEL_HORIZONTAL abs_raw.
Proof.
  split; [exact wf_img2x2|]. split; [exact wf_img2x2_faded|].
  apply (X4_input_alpha_ignored img2x2 img2x2_faded SOBEL_HORIZONTAL abs_raw
           wf_img2x2 wf_img2x2_faded eq_refl eq_refl).
  intros x y c Hx Hy Hc. cbn in Hx, Hy.
  destruct x as [|[|x]], y as [|[|y]], c as [|[|[|c]]]; try lia; reflexivity.
Defined.

(** X6.  With a kernel that has no negative weight, the [useReLU] flag
    makes no difference: both settings give the very same result. *)
Theorem X6_relu_flag_irrelevant (img : ImageData) (kernel : KernelMatrix)
        (gray norm : bool) :
  wf_image img ->
  Forall (fun q => (0 <= q)%Q) (kernel_flat kernel) ->
  applyConvolution img kernel (Options gray true norm) =
  applyConvolution img kernel (Options gray false norm).
Proof.
  intros [_ Hb] Hk. apply applyConvolution_ext; try done.
  intros x y Hx Hy. apply bytes4_by_component. intros c Hc.
  rewrite !pixelValue_components by done. cbn [useGrayscale].
  assert (Ha : forall c', c' < 3 ->
            activate (Options gray true norm) (component (accumulate img kernel x y) c') ==
            activate (Options gray false norm) (component (accumulate img kernel x y) c')).
  { intros c' Hc'. apply activate_nonneg_any.
    rewrite component_conv_sum by done. by apply conv_sum_nonneg. }
  destruct gray; [|by apply Ha].
  rewrite (Ha 0), (Ha 1), (Ha 2) by lia. done.
Qed.

Lemma X6_witness :
  wf_image img2x2 /\ Forall (fun q => (0 <= q)%Q) (kernel_flat BOX_BLUR) /\
  applyConvolution img2x2 BOX_BLUR (Options false true true) =
  applyConvolution img2x2 BOX_BLUR (Options false false true).
Proof.
  assert (Hk : Forall (fun q => (0 <= q)%Q) (kernel_flat BOX_BLUR)).
  { unfold kernel_flat, BOX_BLUR. cbn. repeat (constructor; [discriminate|]). constructor. }
  split; [exact wf_img2x2|]. split; [exact Hk|].
  apply (X6_relu_flag_irrelevant img2x2 BOX_BLUR false true wf_img2x2 Hk).
Defined.

(** X7.  On an image whose R, G and B bytes agree at every pixel, the
    [useGrayscale] flag makes no difference. *)
Theorem X7_grayscale_flag_irrelevant (img : ImageData) (kernel : KernelMatrix)
        (relu norm : bool) :
  (forall x y, x < width img -> y < height img ->
     channel img x y 0 = channel img x y 1 /\ channel img x y 1 = channel img x y 2) ->
  applyConvolution img kernel (Options true relu norm) =
  applyConvolution img kernel (Options false relu norm).
Proof.
  intros Hg. apply applyConvolution_ext; try done.
  intros x y Hx Hy. apply bytes4_by_component. intros c Hc.
  rewrite !pixelValue_components by done. cbn [useGrayscale].
  assert (H01 : component (accumulate img kernel x y) 0 == component (accumulate img kernel x y) 1).
  { rewrite !component_conv_sum by lia. apply conv_sum_gray.
    intros x' y' Hx' Hy'. by apply Hg. }
  assert (H12 : component (accumulate img kernel x y) 1 == component (accumulate img kernel x y) 2).
  { rewrite !component_conv_sum by lia. apply conv_sum_gray.
    intros x' y' Hx' Hy'. by apply Hg. }
  set (a := fun c' => activate (Options true relu norm) (component (accumulate img kernel x y) c')).
  assert (E : forall c', activate (Options false relu norm) (component (accumulate img kernel x y) c')
                         = a c') by done.
  rewrite E.
  assert (A01 : a 0 == a 1) by (by apply activate_comp).
  assert (A12 : a 1 == a 2) by (by apply activate_comp).
  change (activate (Options true relu norm) (component (accumulate img kernel x y) 0)) with (a 0).
  change (activate (Options true relu norm) (component (accumulate img kernel x y) 1)) with (a 1).
  change (activate (Options true relu norm) (component (accumulate img kernel x y) 2)) with (a 2).
  destruct c as [|[|[|c]]]; [..|lia].
  - rewrite <- A12, <- A01. field.
  - rewrite <- A12, A01. field.
  - rewrite A01, A12. field.
Qed.

Lemma X7_witness :
  (forall x y, x < width img2x2_gray -> y < height img2x2_gray ->
     channel img2x2_gray x y 0 = channel img2x2_gray x y 1 /\
     channel img2x2_gray x y 1 = channel img2x2_gray x y 2) /\
  applyConvolution img2x2_gray SOBEL_HORIZONTAL (Options true false false) =
  applyConvolution img2x2_gray SOBEL_HORIZONTAL (Options false false false).
Proof.
  assert (Hg : forall x y, x < width img2x2_gray -> y < height img2x2_gray ->
     channel img2x2_gray x y 0 = channel img2x2_gray x y 1 /\
     channel img2x2_gray x y 1 = channel img2x2_gray x y 2).
  { intros x y Hx Hy. cbn in Hx, Hy.
    destruct x as [|[|x]], y as [|[|y]]; try lia; split; reflexivity. }
  split; [exact Hg|].
  apply (X7_grayscale_flag_irrelevant img2x2_gray SOBEL_HORIZONTAL false false Hg).
Defined.

(** X5.  On an image whose R, G and B bytes all hold [v], the convolution
    sums of a pixel that has all its neighbours are the weight sum of the
    kernel times [v]; with [normalize] off the bytes stored there are the
    clamped activation of that product, with or without [useGrayscale]. *)
Theorem X5_constant_image (img : ImageData) (kernel : KernelMatrix)
        (options : ProcessingOptions) (x y c : nat) (v : Z) :
  wf_image img ->
  (forall x' y' c', x' < width img -> y' < height img -> c' < 3 ->
                    channel img x' y' c' = v) ->
  1 <= x -> x + 1 < width img -> 1 <= y -> y + 1 < height img -> c < 3 ->
  component (accumulate img kernel x y) c == kSum kernel * inject_Z v /\
  (normalize options = false ->
   channel (applyConvolution img kernel options) x y c =
   toUint8Clamp (activate options (kSum kernel * inject_Z v))).
Proof.
  intros Hwf Hv Hx0 Hx1 Hy0 Hy1 Hc.
  assert (Hs : forall c', c' < 3 ->
            component (accumulate img kernel x y) c' == kSum kernel * inject_Z v).
  { intros c' Hc'. rewrite component_conv_sum by done.
    apply conv_sum_constant; try done. intros x' y' Hx' Hy'. by apply Hv. }
  split; [by apply Hs|].
  intros Hn. rewrite raw_channel by (done || lia).
  apply toUint8Clamp_comp. rewrite pixelValue_components by done.
  pose proof (activate_comp options _ _ (Hs 0 ltac:(lia))) as A0.
  pose proof (activate_comp options _ _ (Hs 1 ltac:(lia))) as A1.
  pose proof (activate_comp options _ _ (Hs 2 ltac:(lia))) as A2.
  pose proof (activate_comp options _ _ (Hs c Hc)) as Ac.
  destruct (useGrayscale options); [|exact Ac].
  rewrite A0, A1, A2. field.
Qed.

(** X8.  The normalisation pass keeps the order of the bytes: of two R, G
    or B bytes, the one that was not greater before the pass is not
    greater after it. *)
Theorem X8_normalize_monotone (img : ImageData) (kernel : KernelMatrix)
        (options : ProcessingOptions) (x y c x' y' c' : nat) :
  wf_image img -> normalize options = true ->
  x < width img -> y < height img -> c < 3 ->
  x' < width img -> y' < height img -> c' < 3 ->
  let pre := applyConvolution img kernel (with_normalize false options) in
  let out := applyConvolution img kernel options in
  (channel pre x y c <= channel pre x' y' c')%Z ->
  (channel out x y c <= channel out x' y' c')%Z.
Proof.
  intros Hwf Hn Hx Hy Hc Hx' Hy' Hc'. cbv zeta.
  pose proof (wf_length img Hwf) as Hlen.
  set (P := convolvePass img kernel options).
  assert (Hcp : forall x y c,
             channel (applyConvolution img kernel (with_normalize false options)) x y c =
             rd P (4 * (y * width img + x) + c)).
  { intros x0 y0 c0. unfold channel, applyConvolution. cbn [data width normalize with_normalize].
    rewrite convolvePass_with_normalize. f_equal. lia. }
  assert (Hco : forall x y c,
             channel (applyConvolution img kernel options) x y c =
             rd (normalizePass P) (4 * (y * width img + x) + c)).
  { intros x0 y0 c0. unfold channel, applyConvolution. rewrite Hn. cbn [data width].
    f_equal. lia. }
  rewrite !Hcp, !Hco. unfold normalizePass. destruct (scanMinMax P) as [mn mx].
  destruct (mx - mn >? 0)%Z eqn:Er; [|done].
  apply Z.gtb_gt in Er. intros Hle.
  rewrite !(rescalePass_channel img kernel options Hlen) by (lia || nia).
  repeat case_decide; try lia. apply rescale_mono; [lia | exact Hle].
Qed.

(** X9.  With [normalize] off, no byte of the [useReLU] result exceeds
    the byte at the same place of the absolute-value result. *)
Theorem X9_relu_below_abs (img : ImageData) (kernel : KernelMatrix)
        (gray : bool) (x y c : nat) :
  wf_image img -> x < width img -> y < height img -> c < 3 ->
  (channel (applyConvolution img kernel (Options gray true false)) x y c <=
   channel (applyConvolution img kernel (Options gray false false)) x y c)%Z.
Proof.
  intros Hwf Hx Hy Hc. rewrite !raw_channel by done.
  apply toUint8Clamp_mono. rewrite !pixelValue_components by done.
  cbn [useGrayscale]. unfold activate. cbn [useReLU].
  pose proof (relu_le_abs (component (accumulate img kernel x y) 0)).
  pose proof (relu_le_abs (component (accumulate img kernel x y) 1)).
  pose proof (relu_le_abs (component (accumulate img kernel x y) 2)).
  pose proof (relu_le_abs (component (accumulate img kernel x y) c)).
  destruct gray; [|done].
  unfold Qdiv. change (/ 3)%Q with (1 # 3)%Q. lra.
Qed.

(** X10.  Convolving a result again with the identity kernel, [useReLU]
    on and the other options off, gives that result back. *)
Theorem X10_identity_fixes_outputs (img : ImageData) (kernel : KernelMatrix)
        (options : ProcessingOptions) :
  wf_image img ->
  applyConvolution (applyConvolution img kernel options) IDENTITY_KERNEL
                   (Options false true false) =
  applyConvolution img kernel options.
Proof.
  intros Hwf.
  set (out := applyConvolution img kernel options).
  assert (Hout : wf_image out).
  { split; [|apply applyConvolution_bytes].
    unfold out. rewrite applyConvolution_length. apply Hwf. }
  assert (Hd : data (applyConvolution out IDENTITY_KERNEL (Options false true false)) = data out).
  { apply data_eq_by_channels; try done.
    - rewrite applyConvolution_length. apply Hout.
    - apply Hout.
    - intros x y c Hx Hy Hc. change (x < width out) in Hx. change (y < height out) in Hy.
      destruct (decide (c = 3)) as [->|Hc3].
      + rewrite raw_alpha by done. symmetry. by apply output_alpha.
      + rewrite raw_channel by (done || lia). apply identity_pixel; (done || lia). }
  unfold applyConvolution at 1. cbn [normalize]. 
  change (convolvePass out IDENTITY_KERNEL (Options false true false))
    with (data (applyConvolution out IDENTITY_KERNEL (Options false true false))).
  rewrite Hd. by destruct out.
Qed.

Lemma wf_img3x3_flat : wf_image img3x3_flat.
Proof.
  split; [reflexivity|]. unfold img3x3_flat, data. cbn [replicate concat app].
  repeat (constructor; [unfold byte_range; lia|]). constructor.
Defined.

Lemma img3x3_flat_constant x y c :
  x < width img3x3_flat -> y < height img3x3_flat -> c < 3 ->
  channel img3x3_flat x y c = 100%Z.
Proof.
  intros Hx Hy Hc. cbn in Hx, Hy.
  destruct x as [|[|[|x]]], y as [|[|[|y]]], c as [|[|[|c]]]; try lia; reflexivity.
Defined.

Lemma X5_witness :
  wf_image img3x3_flat /\
  (forall x' y' c', x' < width img3x3_flat -> y' < height img3x3_flat -> c' < 3 ->
                    channel img3x3_flat x' y' c' = 100%Z) /\
  1 + 1 < width img3x3_flat /\ 1 + 1 < height img3x3_flat /\
  component (accumulate img3x3_flat SOBEL_HORIZONTAL 1 1) 2 ==
  kSum SOBEL_HORIZONTAL * inject_Z 100 /\
  channel (applyConvolution img3x3_flat SOBEL_HORIZONTAL abs_raw) 1 1 2 =
  toUint8Clamp (activate abs_raw (kSum SOBEL_HORIZONTAL * inject_Z 100)).
Proof.
  split; [exact wf_img3x3_flat|]. split; [exact img3x3_flat_constant|].
  split; [cbn; lia|]. split; [cbn; lia|].
  destruct (X5_constant_image img3x3_flat SOBEL_HORIZONTAL abs_raw 1 1 2 100
              wf_img3x3_flat img3x3_flat_constant)
    as [Hs Ho]; [lia | cbn; lia | lia | cbn; lia | lia |].
  split; [exact Hs | exact (Ho eq_refl)].
Defined.

Lemma X8_witness :
  wf_image img2x2 /\ normalize ReLU_normalized = true /\
  (channel (applyConvolution img2x2 IDENTITY_KERNEL (with_normalize false ReLU_normalized)) 0 0 0 <=
   channel (applyConvolution img2x2 IDENTITY_KERNEL (with_normalize false ReLU_normalized)) 1 1 2)%Z /\
  (channel (applyConvolution img2x2 IDENTITY_KERNEL ReLU_normalized) 0 0 0 <=
   channel (applyConvolution img2x2 IDENTITY_KERNEL ReLU_normalized) 1 1 2)%Z.
Proof.
  assert (Hpre :
    (channel (applyConvolution img2x2 IDENTITY_KERNEL (with_normalize false ReLU_normalized)) 0 0 0 <=
     channel (applyConvolution img2x2 IDENTITY_KERNEL (with_normalize false ReLU_normalized)) 1 1 2)%Z).
  { vm_compute. discriminate. }
  split; [exact wf_img2x2|]. split; [reflexivity|]. split; [exact Hpre|].
  apply (X8_normalize_monotone img2x2 IDENTITY_KERNEL ReLU_normalized 0 0 0 1 1 2
           wf_img2x2 eq_refl); [cbn; lia | cbn; lia | lia | cbn; lia | cbn; lia | lia |].
  exact Hpre.
Defined.

Lemma X9_witness :
  wf_image img2x2 /\ 0 < width img2x2 /\ 0 < height img2x2 /\ 0 < 3 /\
  (channel (applyConvolution img2x2 SOBEL_VERTICAL (Options false true false)) 1 0 0 <=
   channel (applyConvolution img2x2 SOBEL_VERTICAL (Options false false false)) 1 0 0)%Z.
Proof.
  split; [exact wf_img2x2|]. split; [cbn; lia|]. split; [cbn; lia|]. split; [lia|].
  apply (X9_relu_below_abs img2x2 SOBEL_VERTICAL false 1 0 0 wf_img2x2);
    [cbn; lia | cbn; lia | lia].
Defined.

Lemma X10_witness :
  wf_image img2x2 /\
  applyConvolution (applyConvolution img2x2 SOBEL_HORIZONTAL gray_normalized)
                   IDENTITY_KERNEL (Options false true false) =
  applyConvolution img2x2 SOBEL_HORIZONTAL gray_normalized.
Proof.
  split; [exact wf_img2x2|].
  apply (X10_identity_fixes_outputs img2x2 SOBEL_HORIZONTAL gray_normalized wf_img2x2).
Defined.

(* ====================================================================== *)
(** ** Further properties of the patch forward pass                        *)
(* ====================================================================== *)

(** Reduces [kernel_at k i j] at closed indices to the field it reads. *)
Ltac kernel_cells :=
  unfold kernel_at, kernel_row, row_at;
  repeat match goal with
         | |- context [(?a =? ?b)%Z] =>
             let r := eval vm_compute in (a =? b)%Z in
             match r with
             | true => change (a =? b)%Z with true
             | false => change (a =? b)%Z with false
             end
         end;
  cbv iota.

Section PatchFacts.

Local Open Scope Q_scope.

Variable inputPatch : list (list Q).
Variable kernel : KernelMatrix.

(** The nine products of one output position, written out. *)
Lemma patchSum_unfold (y x : nat) :
  patchSum inputPatch kernel y x =
  0 + patch_at inputPatch (y + 0) (x + 0) * c0 (r0 kernel)
    + patch_at inputPatch (y + 0) (x + 1) * c1 (r0 kernel)
    + patch_at inputPatch (y + 0) (x + 2) * c2 (r0 kernel)
    + patch_at inputPatch (y + 1) (x + 0) * c0 (r1 kernel)
    + patch_at inputPatch (y + 1) (x + 1) * c1 (r1 kernel)
    + patch_at inputPatch (y + 1) (x + 2) * c2 (r1 kernel)
    + patch_at inputPatch (y + 2) (x + 0) * c0 (r2 kernel)
    + patch_at inputPatch (y + 2) (x + 1) * c1 (r2 kernel)
    + patch_at inputPatch (y + 2) (x + 2) * c2 (r2 kernel).
Proof. reflexivity. Qed.

Lemma kSum_unfold :
  kSum kernel ==
  c0 (r0 kernel) + c1 (r0 kernel) + c2 (r0 kernel) +
  c0 (r1 kernel) + c1 (r1 kernel) + c2 (r1 kernel) +
  c0 (r2 kernel) + c1 (r2 kernel) + c2 (r2 kernel).
Proof. unfold kSum, kernel_flat. cbn [fold_left]. ring. Qed.

Lemma activated_cells (useReLU : bool) (y x : nat) :
  (y < 2)%nat -> (x < 2)%nat ->
  get2 (map_ (featureMap inputPatch kernel useReLU)) y x =
  if useReLU then Math_max0 (patchSum inputPatch kernel y x)
  else patchSum inputPatch kernel y x.
Proof.
  intros Hy Hx. destruct y as [|[|y]], x as [|[|x]]; try lia; reflexivity.
Qed.

Lemma raw_cells (useReLU : bool) (y x : nat) :
  (y < 2)%nat -> (x < 2)%nat ->
  get2 (rawMap (featureMap inputPatch kernel useReLU)) y x = patchSum inputPatch kernel y x.
Proof.
  intros Hy Hx. destruct y as [|[|y]], x as [|[|x]]; try lia; reflexivity.
Qed.

(** Every pooling branch stays between two bounds of the four values. *)
Lemma pooled_between (fm : FeatureMap) (mode : string) (lo hi : Q) :
  (forall y x, (y < 2)%nat -> (x < 2)%nat -> lo <= get2 (map_ fm) y x <= hi) ->
  lo <= pooledValue fm mode <= hi.
Proof.
  intros H.
  pose proof (H 0%nat 0%nat ltac:(lia) ltac:(lia)) as H00.
  pose proof (H 0%nat 1%nat ltac:(lia) ltac:(lia)) as H01.
  pose proof (H 1%nat 0%nat ltac:(lia) ltac:(lia)) as H10.
  pose proof (H 1%nat 1%nat ltac:(lia) ltac:(lia)) as H11.
  unfold pooledValue. set (a := get2 (map_ fm) 0 0) in *. set (b := get2 (map_ fm) 0 1) in *.
  set (c := get2 (map_ fm) 1 0) in *. set (d := get2 (map_ fm) 1 1) in *.
  destruct (String.eqb mode "max").
  - cbn [Math_max fold_left]. split.
    + eapply Qle_trans; [apply H00|].
      eapply Qle_trans; [apply (Q.le_max_l a b)|].
      eapply Qle_trans; [apply (Q.le_max_l _ c)|]. apply Q.le_max_l.
    + repeat apply Q.max_lub; lra.
  - destruct (String.eqb mode "average"); [|done].
    cbn [fold_left]. unfold Qdiv. change (/ 4) with (1 # 4). split; lra.
Qed.

End PatchFacts.

Section RemainderFacts.

Local Open Scope Q_scope.

(** The remainder of a dividend that is not negative is in [0, 255). *)
Lemma js_rem_nonneg (a : Q) : 0 <= a -> 0 <= js_rem a 255 < 255.
Proof.
  intros Ha. unfold js_rem, Qtrunc. set (q := a / 255).
  assert (Hq : a == 255 * q) by (unfold q; field).
  assert (Hq0 : 0 <= q) by lra.
  apply Qle_bool_iff in Hq0. rewrite Hq0.
  pose proof (Qfloor_le q) as F1. pose proof (Qlt_floor q) as F2.
  rewrite inject_Z_plus in F2. change (inject_Z 1) with 1 in F2.
  set (t := inject_Z (Qfloor q)) in *. split; lra.
Qed.

End RemainderFacts.

(** X11.  With [useReLU] on, whatever the patch, the kernel and the
    pooling mode, the pooled value is not negative, and neither is any
    entry of the flatten vector; its third entry is below 255. *)
Theorem X11_relu_nonnegative (inputPatch : list (list Q)) (kernel : KernelMatrix)
        (poolingMode : string) :
  let p := pooledValue (featureMap inputPatch kernel true) poolingMode in
  (0 <= p)%Q /\
  Forall (fun v => (0 <= v)%Q) (flatVector p) /\
  (at1 (flatVector p) 2 < 255)%Q.
Proof.
  cbv zeta.
  set (p := pooledValue (featureMap inputPatch kernel true) poolingMode).
  assert (Hmax : forall s, (0 <= Math_max0 s)%Q) by (intros s; apply Q.le_max_l).
  assert (Hp : (0 <= p)%Q).
  { unfold p. unfold pooledValue.
    rewrite !activated_cells by lia.
    destruct (String.eqb poolingMode "max").
    - cbn [Math_max fold_left].
      eapply Qle_trans; [apply (Hmax (patchSum inputPatch kernel 0 0))|].
      eapply Qle_trans; [apply Q.le_max_l|].
      eapply Qle_trans; [apply Q.le_max_l|]. apply Q.le_max_l.
    - destruct (String.eqb poolingMode "average"); [|apply Hmax].
      cbn [fold_left].
      pose proof (Hmax (patchSum inputPatch kernel 0 0)).
      pose proof (Hmax (patchSum inputPatch kernel 0 1)).
      pose proof (Hmax (patchSum inputPatch kernel 1 0)).
      pose proof (Hmax (patchSum inputPatch kernel 1 1)).
      unfold Qdiv. change (/ 4)%Q with (1 # 4)%Q. lra. }
  assert (Hr : (0 <= js_rem (p * (3 # 2)) 255 < 255)%Q) by (apply js_rem_nonneg; lra).
  split; [exact Hp|]. split.
  - unfold flatVector. repeat constructor.
    + exact Hp.
    + apply Qabs_nonneg.
    + apply Hr.
    + unfold Qdiv. change (/ 2)%Q with (1 # 2)%Q. lra.
  - apply Hr.
Qed.

(** X12.  Pooling never leaves the range of the four activated values:
    bounds that hold for all four hold for the pooled value, in the
    ['max'] mode, in the ['average'] mode and in any other mode. *)
Theorem X12_pooled_between (inputPatch : list (list Q)) (kernel : KernelMatrix)
        (useReLU : bool) (poolingMode : string) (lo hi : Q) :
  (forall y x, y < 2 -> x < 2 ->
     (lo <= get2 (map_ (featureMap inputPatch kernel useReLU)) y x <= hi)%Q) ->
  (lo <= pooledValue (featureMap inputPatch kernel useReLU) poolingMode <= hi)%Q.
Proof. apply pooled_between. Qed.

Lemma X12_witness :
  (forall y x, y < 2 -> x < 2 ->
     (0 <= get2 (map_ (featureMap patch_ramp SOBEL_HORIZONTAL false)) y x <= 1000)%Q) /\
  (0 <= pooledValue (featureMap patch_ramp SOBEL_HORIZONTAL false) "average" <= 1000)%Q.
Proof.
  assert (H : forall y x, y < 2 -> x < 2 ->
     (0 <= get2 (map_ (featureMap patch_ramp SOBEL_HORIZONTAL false)) y x <= 1000)%Q).
  { intros y x Hy Hx. destruct y as [|[|y]], x as [|[|x]]; try lia;
      split; vm_compute; discriminate. }
  split; [exact H|].
  apply (X12_pooled_between patch_ramp SOBEL_HORIZONTAL false "average" 0 1000 H).
Defined.

(** X13.  Under the identity kernel the raw feature map is the central
    2x2 block of the patch. *)
Theorem X13_identity_feature_map (inputPatch : list (list Q)) (useReLU : bool)
        (y x : nat) :
  y < 2 -> x < 2 ->
  get2 (rawMap (featureMap inputPatch IDENTITY_KERNEL useReLU)) y x ==
  patch_at inputPatch (y + 1) (x + 1).
Proof.
  intros Hy Hx. rewrite raw_cells by done. rewrite patchSum_unfold.
  cbn [IDENTITY_KERNEL r0 r1 r2 c0 c1 c2]. ring.
Qed.

Lemma X13_witness :
  1 < 2 /\ 0 < 2 /\
  get2 (rawMap (featureMap patch_ramp IDENTITY_KERNEL true)) 1 0 ==
  patch_at patch_ramp (1 + 1) (0 + 1).
Proof.
  split; [lia|]. split; [lia|].
  apply (X13_identity_feature_map patch_ramp true 1 0); lia.
Defined.

(** X14.  On a patch whose sixteen cells hold one value [v], the four raw
    sums are the weight sum of the kernel times [v], and max pooling and
    average pooling give the same value, the activation of that product. *)
Theorem X14_constant_patch (inputPatch : list (list Q)) (kernel : KernelMatrix)
        (useReLU : bool) (v : Q) :
  (forall i j, i < 4 -> j < 4 -> patch_at inputPatch i j == v) ->
  let fm := featureMap inputPatch kernel useReLU in
  let a := if useReLU then Qmax 0 (kSum kernel * v) else (kSum kernel * v)%Q in
  (forall y x, y < 2 -> x < 2 -> get2 (rawMap fm) y x == kSum kernel * v) /\
  pooledValue fm "max" == a /\
  pooledValue fm "average" == a.
Proof.
  intros Hv. cbv zeta.
  assert (Hs : forall y x, y < 2 -> x < 2 -> patchSum inputPatch kernel y x == kSum kernel * v).
  { intros y x Hy Hx. rewrite patchSum_unfold, kSum_unfold.
    rewrite !Hv by lia. ring. }
  assert (Ha : forall y x, y < 2 -> x < 2 ->
            get2 (map_ (featureMap inputPatch kernel useReLU)) y x ==
            if useReLU then Qmax 0 (kSum kernel * v) else (kSum kernel * v)%Q).
  { intros y x Hy Hx. rewrite activated_cells by done.
    destruct useReLU; [|by apply Hs].
    unfold Math_max0. apply Q.max_compat; [done | by apply Hs]. }
  split; [|split].
  - intros y x Hy Hx. rewrite raw_cells by done. by apply Hs.
  - rewrite pooledValue_max. rewrite !Ha by lia. rewrite !Q.max_id. done.
  - rewrite pooledValue_average. rewrite !Ha by lia. field.
Qed.

Lemma X14_witness :
  (forall i j, i < 4 -> j < 4 -> patch_at patch7 i j == 7) /\
  pooledValue (featureMap patch7 SHARPEN true) "max" == Qmax 0 (kSum SHARPEN * 7) /\
  pooledValue (featureMap patch7 SHARPEN true) "average" == Qmax 0 (kSum SHARPEN * 7).
Proof.
  assert (H : forall i j, i < 4 -> j < 4 -> patch_at patch7 i j == 7).
  { intros i j Hi Hj.
    destruct i as [|[|[|[|i]]]], j as [|[|[|[|j]]]]; try lia; reflexivity. }
  split; [exact H|].
  destruct (X14_constant_patch patch7 SHARPEN true 7 H) as (_ & Hm & Ha).
  split; [exact Hm | exact Ha].
Defined.

Section Rounding.

Local Open Scope Q_scope.

Lemma Qfloor_unique (q : Q) (z : Z) :
  inject_Z z <= q -> q < inject_Z (z + 1) -> Qfloor q = z.
Proof.
  intros H0 H1.
  pose proof (Qfloor_le q) as F0. pose proof (Qlt_floor q) as F1.
  assert (A : (Qfloor q < z + 1)%Z) by (rewrite Zlt_Qlt; lra).
  assert (B : (z < Qfloor q + 1)%Z) by (rewrite Zlt_Qlt; lra).
  lia.
Qed.

Lemma Math_round_inject_Z (z : Z) (q : Q) : q == inject_Z z -> Math_round q = z.
Proof.
  intros E. unfold Math_round. apply Qfloor_unique.
  - lra.
  - rewrite inject_Z_plus. change (inject_Z 1) with 1. lra.
Qed.

Lemma Math_round_mono (q q' : Q) : q <= q' -> (Math_round q <= Math_round q')%Z.
Proof. intros H. unfold Math_round. apply Qfloor_resp_le. lra. Qed.

(** The rounded mean of three integers lies between any bounds of theirs. *)
Lemma rounded_mean_between (r g b lo hi : Z) :
  (lo <= r <= hi)%Z -> (lo <= g <= hi)%Z -> (lo <= b <= hi)%Z ->
  (lo <= Math_round (inject_Z (r + g + b) / 3) <= hi)%Z.
Proof.
  intros Hr Hg Hb.
  assert (L : inject_Z lo <= inject_Z (r + g + b) / 3).
  { apply Qle_shift_div_l; [reflexivity|].
    change 3 with (inject_Z 3). rewrite <- inject_Z_mult, <- Zle_Qle. lia. }
  assert (U : inject_Z (r + g + b) / 3 <= inject_Z hi).
  { apply Qle_shift_div_r; [reflexivity|].
    change 3 with (inject_Z 3). rewrite <- inject_Z_mult, <- Zle_Qle. lia. }
  pose proof (Math_round_mono _ _ L) as ML.
  pose proof (Math_round_mono _ _ U) as MU.
  rewrite (Math_round_inject_Z lo (inject_Z lo)) in ML by reflexivity.
  rewrite (Math_round_inject_Z hi (inject_Z hi)) in MU by reflexivity.
  lia.
Qed.

Lemma rounded_mean_same (v : Z) : Math_round (inject_Z (v + v + v) / 3) = v.
Proof.
  apply Math_round_inject_Z.
  replace (v + v + v)%Z with (v * 3)%Z by lia. rewrite inject_Z_mult.
  change (inject_Z 3) with 3. field.
Qed.

End Rounding.

Section PatchExtraction.

Variable pData : list Z.

(** The cell written for row [i], column [j] of the box. *)
Lemma patchFromPixels_at (i j : nat) :
  i < 4 -> j < 4 ->
  patch_at (patchFromPixels pData) i j =
  inject_Z (Math_round (inject_Z (rd pData ((i * 4 + j) * 4) +
                                  rd pData ((i * 4 + j) * 4 + 1) +
                                  rd pData ((i * 4 + j) * 4 + 2)) / 3)).
Proof.
  intros Hi Hj.
  destruct i as [|[|[|[|i]]]], j as [|[|[|[|j]]]]; try lia; reflexivity.
Qed.

Lemma patchFromPixels_shape : patch_4x4 (patchFromPixels pData).
Proof. split; [reflexivity|]. repeat constructor. Qed.

End PatchExtraction.

(** A patch of the expected shape has no cell to fill. *)
Lemma pad4x4_id (p : list (list Q)) : patch_4x4 p -> pad4x4 p = p.
Proof.
  intros [Hl Hr].
  destruct p as [|a [|b [|c [|d [|]]]]]; try discriminate.
  inversion Hr as [|? ? Ha Hr1]; subst. inversion Hr1 as [|? ? Hb Hr2]; subst.
  inversion Hr2 as [|? ? Hc Hr3]; subst. inversion Hr3 as [|? ? Hd _]; subst.
  destruct a as [|a0 [|a1 [|a2 [|a3 [|]]]]]; try discriminate.
  destruct b as [|b0 [|b1 [|b2 [|b3 [|]]]]]; try discriminate.
  destruct c as [|c0' [|c1' [|c2' [|c3' [|]]]]]; try discriminate.
  destruct d as [|d0 [|d1 [|d2 [|d3 [|]]]]]; try discriminate.
  reflexivity.
Qed.

Section InnerPixel.

Local Open Scope Q_scope.

Variable img : ImageData.
Variable kernel : KernelMatrix.

(** The convolution sum of the pixel [(x0 + 1, y0 + 1)], all of whose
    neighbours are inside the image, written out. *)
Lemma conv_sum_inner (x0 y0 ch : nat) :
  (x0 + 2 < width img)%nat -> (y0 + 2 < height img)%nat ->
  conv_sum img kernel (x0 + 1) (y0 + 1) ch ==
  c0 (r0 kernel) * inject_Z (channel img (x0 + 0) (y0 + 0) ch) +
  c1 (r0 kernel) * inject_Z (channel img (x0 + 1) (y0 + 0) ch) +
  c2 (r0 kernel) * inject_Z (channel img (x0 + 2) (y0 + 0) ch) +
  c0 (r1 kernel) * inject_Z (channel img (x0 + 0) (y0 + 1) ch) +
  c1 (r1 kernel) * inject_Z (channel img (x0 + 1) (y0 + 1) ch) +
  c2 (r1 kernel) * inject_Z (channel img (x0 + 2) (y0 + 1) ch) +
  c0 (r2 kernel) * inject_Z (channel img (x0 + 0) (y0 + 2) ch) +
  c1 (r2 kernel) * inject_Z (channel img (x0 + 1) (y0 + 2) ch) +
  c2 (r2 kernel) * inject_Z (channel img (x0 + 2) (y0 + 2) ch).
Proof.
  intros Hx Hy. unfold conv_sum. rewrite inner_neighbours by lia.
  unfold neighbourhood, Qsum. cbn [map foldr fst snd].
  rewrite !input_at_channel by lia.
  replace (Z.to_nat (Z.of_nat (x0 + 1) + -1)) with (x0 + 0)%nat by lia.
  replace (Z.to_nat (Z.of_nat (x0 + 1) + 0)) with (x0 + 1)%nat by lia.
  replace (Z.to_nat (Z.of_nat (x0 + 1) + 1)) with (x0 + 2)%nat by lia.
  replace (Z.to_nat (Z.of_nat (y0 + 1) + -1)) with (y0 + 0)%nat by lia.
  replace (Z.to_nat (Z.of_nat (y0 + 1) + 0)) with (y0 + 1)%nat by lia.
  replace (Z.to_nat (Z.of_nat (y0 + 1) + 1)) with (y0 + 2)%nat by lia.
  kernel_cells. ring.
Qed.

End InnerPixel.

(** X15.  The patch view and the engine agree.  For an image whose R, G
    and B bytes agree, and the bytes of a 4x4 box inside it, the raw
    feature map of the patch made from the box holds, at [(y, x)], the
    engine's convolution sum at the inner pixel [(sx + 1 + x, sy + 1 + y)]
    of the box. *)
Theorem X15_feature_map_is_engine_sum
        (img : ImageData) (kernel : KernelMatrix) (useReLU : bool)
        (pData : list Z) (sx sy y x c : nat) :
  sx + 4 <= width img -> sy + 4 <= height img ->
  box_bytes img sx sy pData ->
  (forall x' y', x' < width img -> y' < height img ->
     channel img x' y' 0 = channel img x' y' 1 /\
     channel img x' y' 1 = channel img x' y' 2) ->
  y < 2 -> x < 2 -> c < 3 ->
  get2 (rawMap (featureMap (patchFromPixels pData) kernel useReLU)) y x ==
  component (accumulate img kernel (sx + 1 + x) (sy + 1 + y)) c.
Proof.
  intros Hsx Hsy Hbox Hgray Hy Hx Hc.
  assert (Hcell : forall i j, i < 4 -> j < 4 ->
            patch_at (patchFromPixels pData) i j =
            inject_Z (channel img (sx + j) (sy + i) c)).
  { intros i j Hi Hj. rewrite patchFromPixels_at by done.
    pose proof (Hbox i j 0 Hi Hj ltac:(lia)) as B0. rewrite Nat.add_0_r in B0.
    pose proof (Hbox i j 1 Hi Hj ltac:(lia)) as B1.
    pose proof (Hbox i j 2 Hi Hj ltac:(lia)) as B2.
    destruct (Hgray (sx + j) (sy + i) ltac:(lia) ltac:(lia)) as [G01 G12].
    assert (Ec : forall c', c' < 3 -> channel img (sx + j) (sy + i) c' =
                                     channel img (sx + j) (sy + i) c).
    { intros c' Hc'. destruct c as [|[|[|c]]], c' as [|[|[|c']]]; (congruence || lia). }
    rewrite B0, B1, B2, (Ec 0), (Ec 1), (Ec 2) by lia.
    by rewrite rounded_mean_same. }
  rewrite raw_cells by done. rewrite patchSum_unfold.
  rewrite !Hcell by lia.
  rewrite component_conv_sum by done.
  replace (sx + 1 + x) with (sx + x + 1) by lia.
  replace (sy + 1 + y) with (sy + y + 1) by lia.
  rewrite conv_sum_inner by lia.
  rewrite !Nat.add_assoc. ring.
Qed.

Lemma gray4x4_box : box_bytes img4x4_gray 0 0 gray4x4_bytes.
Proof.
  intros i j c Hi Hj Hc. reflexivity.
Defined.

Lemma gray4x4_is_gray x y :
  x < width img4x4_gray -> y < height img4x4_gray ->
  channel img4x4_gray x y 0 = channel img4x4_gray x y 1 /\
  channel img4x4_gray x y 1 = channel img4x4_gray x y 2.
Proof.
  intros Hx Hy. cbn in Hx, Hy.
  destruct x as [|[|[|[|x]]]], y as [|[|[|[|y]]]]; try lia; split; reflexivity.
Defined.

Lemma X15_witness :
  0 + 4 <= width img4x4_gray /\ 0 + 4 <= height img4x4_gray /\
  box_bytes img4x4_gray 0 0 gray4x4_bytes /\
  get2 (rawMap (featureMap (patchFromPixels gray4x4_bytes) SOBEL_HORIZONTAL false)) 1 0 ==
  component (accumulate img4x4_gray SOBEL_HORIZONTAL (0 + 1 + 0) (0 + 1 + 1)) 2.
Proof.
  split; [cbn; lia|]. split; [cbn; lia|]. split; [exact gray4x4_box|].
  apply (X15_feature_map_is_engine_sum img4x4_gray SOBEL_HORIZONTAL false
           gray4x4_bytes 0 0 1 0 2);
    [cbn; lia | cbn; lia | exact gray4x4_box | exact gray4x4_is_gray | lia | lia | lia].
Defined.

(** X16.  The patch built from the bytes of a box is always 4x4, so the
    forward pass has no missing cell to fill; when the bytes are in range,
    every cell is a whole number between the least and the greatest of
    the pixel's R, G and B bytes, and the common value when they agree. *)
Theorem X16_patch_from_pixels (pData : list Z) (i j : nat) :
  Forall byte_range pData -> i < 4 -> j < 4 ->
  let r := rd pData ((i * 4 + j) * 4) in
  let g := rd pData ((i * 4 + j) * 4 + 1) in
  let b := rd pData ((i * 4 + j) * 4 + 2) in
  patch_4x4 (patchFromPixels pData) /\
  pad4x4 (patchFromPixels pData) = patchFromPixels pData /\
  exists n : Z,
    patch_at (patchFromPixels pData) i j = inject_Z n /\
    (Z.min (Z.min r g) b <= n <= Z.max (Z.max r g) b)%Z /\
    (0 <= n <= 255)%Z /\
    (r = g -> g = b -> n = r).
Proof.
  intros Hb Hi Hj. cbv zeta.
  split; [apply patchFromPixels_shape|].
  split; [apply pad4x4_id, patchFromPixels_shape|].
  eexists. split; [by apply patchFromPixels_at|].
  set (r := rd pData ((i * 4 + j) * 4)). set (g := rd pData ((i * 4 + j) * 4 + 1)).
  set (b := rd pData ((i * 4 + j) * 4 + 2)).
  assert (Hrd : forall k, (0 <= rd pData k <= 255)%Z).
  { intros k. unfold rd. destruct (pData !! k) as [v|] eqn:E; [|cbn; lia].
    rewrite Forall_lookup in Hb. apply (Hb k v E). }
  pose proof (Hrd ((i * 4 + j) * 4)) as Hr. pose proof (Hrd ((i * 4 + j) * 4 + 1)) as Hg.
  pose proof (Hrd ((i * 4 + j) * 4 + 2)) as Hbb. fold r in Hr. fold g in Hg. fold b in Hbb.
  split; [|split].
  - apply rounded_mean_between; lia.
  - apply rounded_mean_between; lia.
  - intros -> ->. apply rounded_mean_same.
Qed.

Lemma X16_witness :
  Forall byte_range gray4x4_bytes /\ 1 < 4 /\ 2 < 4 /\
  patch_4x4 (patchFromPixels gray4x4_bytes) /\
  pad4x4 (patchFromPixels gray4x4_bytes) = patchFromPixels gray4x4_bytes.
Proof.
  assert (Hb : Forall byte_range gray4x4_bytes).
  { unfold gray4x4_bytes. cbn [map concat app].
    repeat (constructor; [unfold byte_range; lia|]). constructor. }
  split; [exact Hb|]. split; [lia|]. split; [lia|].
  destruct (X16_patch_from_pixels gray4x4_bytes 1 2 Hb) as (Hs & Hp & _); [lia | lia |].
  split; [exact Hs | exact Hp].
Defined.

(** X17.  The boundary check of the pointer handler lets a position
    through exactly when the 4x4 box that starts one pixel up and left of
    it lies inside the canvas. *)
Theorem X17_patch_box_inside (canvasWidth canvasHeight x y sx sy : Z) :
  patchOrigin canvasWidth canvasHeight x y = Some (sx, sy) <->
  (sx = x - 1 /\ sy = y - 1 /\
   0 <= sx /\ sx + 4 <= canvasWidth /\ 0 <= sy /\ sy + 4 <= canvasHeight)%Z.
Proof.
  unfold patchOrigin. rewrite !Z.geb_leb.
  destruct (_ || _ || _ || _)%bool eqn:E.
  - rewrite !orb_true_iff, !Z.ltb_lt, !Z.leb_le in E. split; [discriminate | lia].
  - rewrite !orb_false_iff, !Z.ltb_ge, !Z.leb_gt in E. split.
    + intros H. injection H as <- <-. lia.
    + intros (-> & -> & _). done.
Qed.

Lemma X17_witness : patchOrigin 400 300 5 7 = Some (4, 6)%Z.
Proof.
  apply (X17_patch_box_inside 400 300 5 7 4 6). lia.
Defined.

(* ====================================================================== *)
(** ** Further properties of the softmax stage and of the class shown      *)
(* ====================================================================== *)

Section SoftmaxFacts.

Local Open Scope R_scope.

Implicit Types l : list R.

Lemma Rmax_map_mono (f : R -> R) (a b : R) :
  (forall x y, x <= y -> f x <= f y) -> Rmax (f a) (f b) = f (Rmax a b).
Proof.
  intros Hf. unfold Rmax.
  destruct (Rle_dec a b) as [H|H], (Rle_dec (f a) (f b)) as [H'|H']; try done.
  - exfalso. apply H'. by apply Hf.
  - apply Rle_antisym; [|done]. apply Hf. Lra.lra.
Qed.

Lemma Rmax_loop_map (f : R -> R) l (v : R) :
  (forall x y, x <= y -> f x <= f y) ->
  fold_left Rmax (map f l) (f v) = f (fold_left Rmax l v).
Proof.
  intros Hf. revert v. induction l as [|x l IH]; intros v; [done|].
  cbn [map fold_left]. rewrite Rmax_map_mono by done. apply IH.
Qed.

Lemma Math_maxR_map (f : R -> R) l :
  (forall x y, x <= y -> f x <= f y) -> l <> [] ->
  Math_maxR (map f l) = f (Math_maxR l).
Proof.
  intros Hf Hne. destruct l as [|v l]; [done|]. cbn [map Math_maxR].
  by apply Rmax_loop_map.
Qed.

Lemma lookup_map {A B} (g : A -> B) (l : list A) (i : nat) :
  map g l !! i = g <$> l !! i.
Proof.
  revert i. induction l as [|x l IH]; intros [|i]; cbn; (done || apply IH).
Qed.

Lemma probabilities_map l :
  probabilities l =
  map (softmax_factor (Math_maxR l)
         (fold_left Rplus (map (fun x => exp ((x - Math_maxR l) / 100)) l) 0)) l.
Proof. unfold probabilities, softmax_factor. by rewrite map_map. Qed.

Lemma softmax_factor_pos m S x : 0 < S -> 0 < softmax_factor m S x.
Proof.
  intros HS. unfold softmax_factor. pose proof (exp_pos ((x - m) / 100)).
  assert (0 < exp ((x - m) / 100) / S) by (by apply Rdiv_lt_0_compat). Lra.lra.
Qed.

Lemma softmax_factor_lt m S x y : 0 < S -> x < y -> softmax_factor m S x < softmax_factor m S y.
Proof.
  intros HS Hxy. unfold softmax_factor.
  assert (E : exp ((x - m) / 100) < exp ((y - m) / 100)) by (apply exp_increasing; Lra.lra).
  apply Rmult_lt_compat_r; [Lra.lra|]. unfold Rdiv.
  apply Rmult_lt_compat_r; [by apply Rinv_0_lt_compat | done].
Qed.

Lemma softmax_factor_le m S x y : 0 < S -> x <= y -> softmax_factor m S x <= softmax_factor m S y.
Proof.
  intros HS [Hlt| ->]; [|Lra.lra]. apply Rlt_le. by apply softmax_factor_lt.
Qed.

Lemma softmax_factor_inj m S x y :
  0 < S -> softmax_factor m S x = softmax_factor m S y -> x = y.
Proof.
  intros HS E. destruct (Rtotal_order x y) as [H|[H|H]]; [|done|].
  - pose proof (softmax_factor_lt m S x y HS H). Lra.lra.
  - pose proof (softmax_factor_lt m S y x HS H). Lra.lra.
Qed.

Lemma exps_sum_pos l (m : R) :
  l <> [] -> 0 < fold_left Rplus (map (fun x => exp ((x - m) / 100)) l) 0.
Proof.
  intros Hne. apply Rsum_pos.
  - destruct l; [done | discriminate].
  - apply Forall_forall. intros v Hv. apply list_elem_of_In, in_map_iff in Hv.
    destruct Hv as (x & <- & _). apply exp_pos.
Qed.

Lemma indexOf_map (g : R -> R) l (v : R) :
  (forall x y, g x = g y -> x = y) -> indexOf (map g l) (g v) = indexOf l v.
Proof.
  intros Hg. induction l as [|x l IH]; [done|]. cbn [map indexOf].
  destruct (Req_dec_T (g x) (g v)) as [E|E], (Req_dec_T x v) as [E'|E']; try done.
  - exfalso. apply E'. by apply Hg.
  - exfalso. apply E. by rewrite E'.
  - by rewrite IH.
Qed.

Lemma indexOf_found l (v : R) :
  In v l ->
  exists k : nat,
    indexOf l v = Z.of_nat k /\ l !! k = Some v /\
    forall j b, (j < k)%nat -> l !! j = Some b -> b <> v.
Proof.
  induction l as [|x l IH]; [done|]. intros Hin. cbn [indexOf].
  destruct (Req_dec_T x v) as [E|E].
  - exists 0%nat. split; [done|]. split; [by rewrite E|]. intros j b Hj. lia.
  - destruct Hin as [Hin|Hin]; [done|].
    destruct (IH Hin) as (k & Hk & Hl & Hfirst). exists (S k).
    rewrite Hk. destruct (Z.ltb_spec (Z.of_nat k) 0); [lia|].
    split; [lia|]. split; [done|].
    intros [|j] b Hj Hb.
    + cbn in Hb. by injection Hb as <-.
    + cbn in Hb. apply (Hfirst j b); [lia | done].
Qed.

End SoftmaxFacts.

(** X18.  Softmax does not change when one constant is added to every
    logit. *)
Theorem X18_softmax_shift (lg : list R) (c : R) :
  probabilities (map (fun x => (x + c)%R) lg) = probabilities lg.
Proof.
  destruct lg as [|v lg]; [done|].
  assert (Hm : Math_maxR (map (fun x => (x + c)%R) (v :: lg)) = (Math_maxR (v :: lg) + c)%R).
  { apply (Math_maxR_map (fun x => (x + c)%R)); [intros; Lra.lra | done]. }
  unfold probabilities. rewrite Hm.
  set (m := Math_maxR (v :: lg)).
  assert (He : map (fun l => exp ((l - (m + c)) / 100)) (map (fun x => (x + c)%R) (v :: lg)) =
               map (fun l => exp ((l - m) / 100)) (v :: lg)).
  { rewrite map_map. apply map_ext. intros x. f_equal. Lra.lra. }
  by rewrite He.
Qed.

(** X19.  Softmax keeps the order of the logits and gives no class a zero
    share: every probability is positive, a greater logit has a greater
    probability and equal logits have equal probabilities. *)
Theorem X19_softmax_order (lg : list R) (i j : nat) (a b : R) :
  lg !! i = Some a -> lg !! j = Some b ->
  exists p q : R,
    probabilities lg !! i = Some p /\ probabilities lg !! j = Some q /\
    (0 < p)%R /\
    ((a < b)%R -> (p < q)%R) /\ ((a <= b)%R -> (p <= q)%R) /\ (a = b -> p = q).
Proof.
  intros Hi Hj.
  assert (Hne : lg <> []) by (intros ->; discriminate).
  pose proof (exps_sum_pos lg (Math_maxR lg) Hne) as HS.
  rewrite probabilities_map. rewrite !lookup_map, Hi, Hj. cbn [fmap option_fmap option_map].
  eexists _, _. split; [reflexivity|]. split; [reflexivity|].
  split; [by apply softmax_factor_pos|].
  split; [by apply softmax_factor_lt|].
  split; [by apply softmax_factor_le | by intros ->].
Qed.

Lemma X19_witness :
  sample_logits !! 0 = Some 1%R /\ sample_logits !! 3 = Some 4%R /\
  exists p q : R,
    probabilities sample_logits !! 0 = Some p /\ probabilities sample_logits !! 3 = Some q /\
    (0 < p)%R /\ (p < q)%R.
Proof.
  split; [reflexivity|]. split; [reflexivity|].
  destruct (X19_softmax_order sample_logits 0 3 1%R 4%R eq_refl eq_refl)
    as (p & q & Hp & Hq & Hpos & Hlt & _).
  exists p, q. split; [exact Hp|]. split; [exact Hq|]. split; [exact Hpos|].
  apply Hlt. Lra.lra.
Defined.

(** X20.  The class shown is the class of the greatest logit, the first
    one when several logits are greatest. *)
Theorem X20_predicted_class (lg : list R) :
  length lg = 4 ->
  exists k : nat,
    k < 4 /\
    predictedClass (probabilities lg) = CLASSES !! k /\
    lg !! k = Some (Math_maxR lg) /\
    forall j b, j < k -> lg !! j = Some b -> (b < Math_maxR lg)%R.
Proof.
  intros Hl.
  assert (Hne : lg <> []) by (intros ->; discriminate).
  pose proof (exps_sum_pos lg (Math_maxR lg) Hne) as HS.
  destruct (Math_maxR_spec lg Hne) as [Hle Hin].
  destruct (indexOf_found lg (Math_maxR lg) Hin) as (k & Hk & Hlk & Hfirst).
  exists k.
  assert (Hk4 : k < 4) by (rewrite <- Hl; by apply lookup_lt_Some in Hlk).
  split; [exact Hk4|]. split; [|split; [exact Hlk|]].
  - unfold predictedClass. rewrite probabilities_map.
    set (g := softmax_factor _ _).
    rewrite (Math_maxR_map g) by (done || intros; by apply softmax_factor_le).
    rewrite indexOf_map by (intros x y; by apply softmax_factor_inj).
    rewrite Hk. destruct (Z.ltb_spec (Z.of_nat k) 0); [lia|]. by rewrite Nat2Z.id.
  - intros j b Hj Hb.
    assert (Hbm : (b <= Math_maxR lg)%R).
    { rewrite Forall_forall in Hle. apply Hle. by apply list_elem_of_lookup_2 in Hb. }
    pose proof (Hfirst j b Hj Hb). Lra.lra.
Qed.

Lemma X20_witness :
  length sample_logits = 4 /\
  exists k : nat, k < 4 /\ predictedClass (probabilities sample_logits) = CLASSES !! k /\
                  sample_logits !! k = Some (Math_maxR sample_logits).
Proof.
  split; [reflexivity|].
  destruct (X20_predicted_class sample_logits eq_refl) as (k & Hk & Hp & Hl & _).
  exists k. split; [exact Hk|]. split; [exact Hp | exact Hl].
Defined.

(* ====================================================================== *)
(** ** Image sizes                                                         *)
(* ====================================================================== *)

Section Sizes.

Local Open Scope Q_scope.

Lemma Qgt_of_leb_false (a b : Q) : negb (Qle_bool a b) = true -> b < a.
Proof. intros E. apply negb_true_iff in E. by apply Qle_bool_false. Qed.

Lemma scaled_le (w r m : Q) : 0 < w -> r <= m / w -> w * r <= m.
Proof.
  intros Hw Hr.
  assert (E : m == w * (m / w)) by (field; lra).
  rewrite E. apply Qmult_le_l; done.
Qed.

End Sizes.

(** X21.  The size chosen for the source canvas of an image with positive
    sides fits in 400 x 400, never exceeds the size of the image, keeps
    its aspect ratio, is the size of the image when that already fits,
    and otherwise has a side of 400. *)
Theorem X21_source_size (w h : Q) :
  (0 < w)%Q -> (0 < h)%Q ->
  let s := sourceSize w h in
  (s.1 <= 400 /\ s.2 <= 400)%Q /\
  (s.1 <= w /\ s.2 <= h)%Q /\
  (s.1 * h == s.2 * w)%Q /\
  ((w <= 400)%Q -> (h <= 400)%Q -> s = (w, h)) /\
  ((400 < w)%Q \/ (400 < h)%Q -> s.1 == 400 \/ s.2 == 400).
Proof.
  intros Hw Hh. cbv zeta. unfold sourceSize, MAX_SIZE.
  destruct (negb (Qle_bool w 400) || negb (Qle_bool h 400)) eqn:E.
  - cbn [fst snd]. set (r := Qmin (400 / w) (400 / h)).
    assert (Hrw : (r <= 400 / w)%Q) by apply Q.le_min_l.
    assert (Hrh : (r <= 400 / h)%Q) by apply Q.le_min_r.
    assert (Hw400 : (w * r <= 400)%Q) by (by apply scaled_le).
    assert (Hh400 : (h * r <= 400)%Q) by (by apply scaled_le).
    assert (Hr1 : (r <= 1)%Q).
    { apply orb_true_iff in E. destruct E as [E|E]; apply Qgt_of_leb_false in E.
      - eapply Qle_trans; [exact Hrw|]. apply Qle_shift_div_r; [done | lra].
      - eapply Qle_trans; [exact Hrh|]. apply Qle_shift_div_r; [done | lra]. }
    assert (Hr0 : (0 <= r)%Q).
    { apply Q.min_glb; apply Qlt_le_weak, Qlt_shift_div_l; (done || lra). }
    split; [done|]. split; [|split; [ring|split]].
    + split.
      * assert (Ew : (w == w * 1)%Q) by ring. rewrite Ew at 2.
        apply Qmult_le_l; done.
      * assert (Eh : (h == h * 1)%Q) by ring. rewrite Eh at 2.
        apply Qmult_le_l; done.
    + intros Hw' Hh'. apply Qle_bool_iff in Hw', Hh'. rewrite Hw', Hh' in E. discriminate.
    + intros _. destruct (Q.min_spec (400 / w) (400 / h)) as [[_ Em]|[_ Em]].
      * left. fold r in Em. rewrite Em. field. lra.
      * right. fold r in Em. rewrite Em. field. lra.
  - apply orb_false_iff in E. destruct E as [Ew Eh].
    apply negb_false_iff, Qle_bool_iff in Ew, Eh. cbn [fst snd].
    split; [done|]. split; [split; apply Qle_refl|]. split; [ring|]. split; [done|].
    intros [H|H]; lra.
Qed.

Lemma X21_witness :
  (0 < 1000)%Q /\ (0 < 500)%Q /\
  ((sourceSize 1000 500).1 <= 400 /\ (sourceSize 1000 500).2 <= 400)%Q /\
  ((sourceSize 1000 500).1 * 500 == (sourceSize 1000 500).2 * 1000)%Q.
Proof.
  split; [reflexivity|]. split; [reflexivity|].
  destruct (X21_source_size 1000 500 eq_refl eq_refl) as (Hfit & _ & Hasp & _).
  split; [exact Hfit | exact Hasp].
Defined.

(** X22.  The size an image of positive width is drawn at has a width of
    at most 500 (exactly 500 when the image is wider) and keeps its
    aspect ratio; an image that is not wider than 500 keeps its size,
    whatever its height. *)
Theorem X22_display_size (w h : Q) :
  (0 < w)%Q ->
  let s := displaySize w h in
  (s.1 <= 500)%Q /\
  (s.1 * h == s.2 * w)%Q /\
  ((500 < w)%Q -> s.1 == 500) /\
  ((w <= 500)%Q -> s = (w, h)).
Proof.
  intros Hw. cbv zeta. unfold displaySize, MAX_W.
  destruct (negb (Qle_bool w 500)) eqn:E.
  - apply Qgt_of_leb_false in E. cbn [fst snd].
    assert (E500 : (w * (500 / w) == 500)%Q) by (field; lra).
    split; [rewrite E500; apply Qle_refl|]. split; [ring|]. split; [done|].
    intros H. lra.
  - apply negb_false_iff, Qle_bool_iff in E. cbn [fst snd].
    split; [done|]. split; [ring|]. split; [|done]. intros H. lra.
Qed.

Lemma X22_witness :
  (0 < 640)%Q /\ ((displaySize 640 4800).1 <= 500)%Q /\
  ((displaySize 640 4800).1 * 4800 == (displaySize 640 4800).2 * 640)%Q.
Proof.
  split; [reflexivity|].
  destruct (X22_display_size 640 4800 eq_refl) as (Hfit & Hasp & _).
  split; [exact Hfit | exact Hasp].
Defined.

(* ====================================================================== *)
(** ** Kernel editing, presets and the state of the application            *)
(* ====================================================================== *)

Section KernelEditing.

Lemma set_cell_same (k : KernelMatrix) (row col : nat) (v : Q) :
  row < 3 -> col < 3 ->
  kernel_at (set_cell k row col v) (Z.of_nat row) (Z.of_nat col) = v.
Proof.
  intros Hr Hc. destruct row as [|[|[|row]]], col as [|[|[|col]]]; try lia; reflexivity.
Qed.

Lemma set_cell_other (k : KernelMatrix) (row col i j : nat) (v : Q) :
  row < 3 -> col < 3 -> i < 3 -> j < 3 -> (i, j) <> (row, col) ->
  kernel_at (set_cell k row col v) (Z.of_nat i) (Z.of_nat j) =
  kernel_at k (Z.of_nat i) (Z.of_nat j).
Proof.
  intros Hr Hc Hi Hj Hne.
  destruct row as [|[|[|row]]], col as [|[|[|col]]],
           i as [|[|[|i]]], j as [|[|[|j]]]; try lia; try reflexivity; congruence.
Qed.

Lemma set_cell_current (k : KernelMatrix) (row col : nat) :
  row < 3 -> col < 3 ->
  set_cell k row col (kernel_at k (Z.of_nat row) (Z.of_nat col)) = k.
Proof.
  intros Hr Hc. destruct k as [[a0 a1 a2] [b0 b1 b2] [d0 d1 d2]].
  destruct row as [|[|[|row]]], col as [|[|[|col]]]; try lia; reflexivity.
Qed.

End KernelEditing.

(** X23.  Editing a cell of the kernel grid: a value that parses hands
    [onChange] a kernel that holds the value in that cell and the old
    weights in the eight others (the old kernel itself when the value is
    the one the cell had); a value that does not parse calls nothing. *)
Theorem X23_kernel_edit (kernel : KernelMatrix) (row col : nat) (v : Q) :
  row < 3 -> col < 3 ->
  handleChange kernel row col None = None /\
  exists newKernel : KernelMatrix,
    handleChange kernel row col (Some v) = Some newKernel /\
    kernel_at newKernel (Z.of_nat row) (Z.of_nat col) = v /\
    (forall i j, i < 3 -> j < 3 -> (i, j) <> (row, col) ->
       kernel_at newKernel (Z.of_nat i) (Z.of_nat j) =
       kernel_at kernel (Z.of_nat i) (Z.of_nat j)) /\
    (v = kernel_at kernel (Z.of_nat row) (Z.of_nat col) -> newKernel = kernel).
Proof.
  intros Hr Hc. split; [reflexivity|].
  exists (set_cell kernel row col v). split; [reflexivity|].
  split; [by apply set_cell_same|]. split.
  - intros i j Hi Hj Hne. by apply set_cell_other.
  - intros ->. by apply set_cell_current.
Qed.

Lemma X23_witness :
  1 < 3 /\ 2 < 3 /\
  exists newKernel : KernelMatrix,
    handleChange SHARPEN 1 2 (Some (7 # 2)) = Some newKernel /\
    kernel_at newKernel 1 2 = (7 # 2)%Q /\
    kernel_at newKernel 1 1 = kernel_at SHARPEN 1 1.
Proof.
  split; [lia|]. split; [lia|].
  destruct (X23_kernel_edit SHARPEN 1 2 (7 # 2)) as (_ & k & Hk & Hsame & Hother & _);
    [lia | lia |].
  exists k. split; [exact Hk|]. split; [exact Hsame|].
  apply (Hother 1 1); [lia | lia | discriminate].
Defined.

Section Presets.

Lemma find_preset_none (n : string) :
  (forall p, In p PRESET_KERNELS -> name p <> n) ->
  List.find (fun p => String.eqb (name p) n) PRESET_KERNELS = None.
Proof.
  intros H. destruct (List.find _ _) as [p|] eqn:E; [|done].
  apply find_some in E. destruct E as [Hin Heq].
  apply String.eqb_eq in Heq. by destruct (H p Hin).
Qed.

Lemma find_preset_own (p : PresetKernel) :
  In p PRESET_KERNELS ->
  List.find (fun q => String.eqb (name q) (name p)) PRESET_KERNELS = Some p.
Proof.
  unfold PRESET_KERNELS. cbn [In].
  intros [<-|[<-|[<-|[<-|[<-|[<-|[]]]]]]]; reflexivity.
Qed.

End Presets.

(** X24.  Choosing a preset: a name that no preset bears leaves the state
    as it is; the name of a preset of the table installs the kernel and
    the description of that very preset (no two presets share a name) and
    touches nothing else. *)
Theorem X24_preset_choice (st : AppState) (presetName : string) (p : PresetKernel) :
  ((forall q, In q PRESET_KERNELS -> name q <> presetName) ->
   handlePresetChange presetName st = st) /\
  (In p PRESET_KERNELS ->
   handlePresetChange (name p) st =
   MkAppState (matrix p) (description p)
              (st_options st) (st_poolingMode st) (st_selectedPatch st)).
Proof.
  split.
  - intros H. unfold handlePresetChange. by rewrite find_preset_none.
  - intros H. unfold handlePresetChange. by rewrite find_preset_own.
Qed.

Lemma X24_witness :
  In (MkPreset "Sharpen" SHARPEN "Enhances the differences between adjacent pixels.")
     PRESET_KERNELS /\
  st_kernel (handlePresetChange "Sharpen" initialState) = SHARPEN /\
  handlePresetChange "Median" initialState = initialState.
Proof.
  assert (Hin : In (MkPreset "Sharpen" SHARPEN
                      "Enhances the differences between adjacent pixels.") PRESET_KERNELS).
  { unfold PRESET_KERNELS. cbn [In]. right. right. right. left. reflexivity. }
  split; [exact Hin|].
  destruct (X24_preset_choice initialState "Median"
              (MkPreset "Sharpen" SHARPEN "Enhances the differences between adjacent pixels."))
    as [Hnone Hown].
  split.
  - change "Sharpen"%string
      with (name (MkPreset "Sharpen" SHARPEN "Enhances the differences between adjacent pixels.")).
    rewrite (Hown Hin). reflexivity.
  - apply Hnone. unfold PRESET_KERNELS. cbn [In].
    intros q [<-|[<-|[<-|[<-|[<-|[<-|[]]]]]]]; discriminate.
Defined.

Section Highlight.

Lemma click_index (i j : nat) :
  i < 2 -> j < 2 ->
  ((Z.of_nat i * 2 + Z.of_nat j) / 2 = Z.of_nat i /\
   Z.rem (Z.of_nat i * 2 + Z.of_nat j) 2 = Z.of_nat j /\
   (Z.of_nat i * 2 + Z.of_nat j =? -1) = false)%Z.
Proof.
  intros Hi Hj. rewrite Z.rem_mod_nonneg by lia.
  split; [lia|]. split; [lia|]. apply Z.eqb_neq. lia.
Qed.

End Highlight.

(** X25.  Clicking cell [(i, j)] of the feature map (a grid whose label
    includes "Map") selects the receptive field that starts at row [i],
    column [j]: that cell alone is highlighted in the map, a grid whose
    label includes "Input" highlights the rows [i..i+2] and columns
    [j..j+2], and the sum shown is the raw sum of output position
    [(i, j)]. *)
Theorem X25_click_selects_field
        (mapLabel inputLabel : string) (i j i' j' : nat) (old : Z)
        (inputPatch : list (list Q)) (kernel : KernelMatrix) (useReLU : bool) :
  includes mapLabel "Map" = true -> includes mapLabel "Input" = false ->
  includes inputLabel "Input" = true -> includes inputLabel "Map" = false ->
  i < 2 -> j < 2 ->
  let idx := clickCell mapLabel i j old in
  startY idx = Z.of_nat i /\ startX idx = Z.of_nat j /\
  (i' < 2 -> j' < 2 ->
   (isHighlighted mapLabel idx i' j' = true <-> i' = i /\ j' = j)) /\
  (isHighlighted inputLabel idx i' j' = true <->
   i <= i' <= i + 2 /\ j <= j' <= j + 2) /\
  get2 (rawMap (featureMap inputPatch kernel useReLU))
       (Z.to_nat (startY idx)) (Z.to_nat (startX idx)) =
  patchSum inputPatch kernel i j.
Proof.
  intros Hmm Hmi Hii Him Hi Hj. cbv zeta. unfold clickCell. rewrite Hmm.
  destruct (click_index i j Hi Hj) as (Hy & Hx & Hne).
  unfold startY, startX. rewrite Hy, Hx.
  split; [done|]. split; [done|]. split; [|split].
  - intros Hi' Hj'. unfold isHighlighted. rewrite Hmm, Hmi, Hne. cbn [andb negb].
    destruct (Z.eqb_spec (Z.of_nat i' * 2 + Z.of_nat j') (Z.of_nat i * 2 + Z.of_nat j));
      split; (done || lia).
  - unfold isHighlighted. rewrite Hii, Him, Hne, Hy, Hx. cbn [andb negb].
    rewrite !Z.geb_leb.
    destruct (_ && _ && _ && _)%bool eqn:E.
    + rewrite !andb_true_iff, !Z.leb_le in E. split; [lia | done].
    + rewrite !andb_false_iff, !Z.leb_gt in E. split; [done | lia].
  - rewrite !Nat2Z.id. by apply raw_cells.
Qed.

Lemma X25_witness :
  includes "Feature Map" "Map" = true /\ includes "Feature Map" "Input" = false /\
  includes "Input Patch" "Input" = true /\ includes "Input Patch" "Map" = false /\
  startY (clickCell "Feature Map" 1 0 0) = 1%Z /\
  startX (clickCell "Feature Map" 1 0 0) = 0%Z /\
  (isHighlighted "Input Patch" (clickCell "Feature Map" 1 0 0) 3 2 = true <->
   1 <= 3 <= 1 + 2 /\ 0 <= 2 <= 0 + 2).
Proof.
  split; [reflexivity|]. split; [reflexivity|]. split; [reflexivity|]. split; [reflexivity|].
  destruct (X25_click_selects_field "Feature Map" "Input Patch" 1 0 3 2 0
              patch_ramp SOBEL_HORIZONTAL false eq_refl eq_refl eq_refl eq_refl)
    as (Hy & Hx & _ & Hin & _); [lia | lia |].
  split; [exact Hy|]. split; [exact Hx | exact Hin].
Defined.

(** The labels the component passes to its grids: the input grid is
    labelled "Raw Pixels", which includes neither "Input" nor "Map", so
    no cell of it is ever highlighted. *)
Example raw_pixels_never_highlighted (highlightIdx : Z) (i j : nat) :
  isHighlighted "Raw Pixels" highlightIdx i j = false /\
  isHighlighted "Kernel (3x3)" highlightIdx i j = false.
Proof. split; reflexivity. Qed.

Section Reachable.

Lemma initial_invariant : state_invariant initialState.
Proof.
  split; [reflexivity|]. split; [by left|]. split; [reflexivity|]. repeat constructor.
Qed.

Lemma step_invariant (st : AppState) (a : Action) :
  state_invariant st -> state_invariant (step st a).
Proof.
  intros (Hn & Hm & Hp). destruct a; cbn [step].
  - unfold handlePresetChange. destruct (List.find _ _); done.
  - destruct (handleChange _ _ _ _); done.
  - done.
  - done.
  - split; [done|]. split; [|done]. cbn [togglePooling st_poolingMode].
    destruct (String.eqb (st_poolingMode st) "max"); [by right | by left].
  - split; [done|]. split; [done|]. apply patchFromPixels_shape.
  - split; [done|]. split; [done|]. apply patchFromPixels_shape.
Qed.

Lemma run_invariant_from (actions : list Action) (st : AppState) :
  state_invariant st -> state_invariant (fold_left step actions st).
Proof.
  revert st. induction actions as [|a actions IH]; intros st H; [done|].
  cbn [fold_left]. apply IH. by apply step_invariant.
Qed.

End Reachable.

(** X26.  Whatever the user does (presets, cell edits, the three option
    boxes, patch picks) and whenever the processing effect completes,
    normalisation stays off, the pooling mode stays
    ['max'] or ['average'] and the patch stays 4x4.  So the engine's
    result is the buffer of its convolution loops, the forward pass has
    no missing cell to fill, and its pooled value is the maximum or the
    mean, never the fallback. *)
Theorem X26_reachable_states (actions : list Action) (img : ImageData) :
  let st := run actions in
  state_invariant st /\
  data (applyConvolution img (st_kernel st) (st_options st)) =
  convolvePass img (st_kernel st) (st_options st) /\
  pad4x4 (st_selectedPatch st) = st_selectedPatch st /\
  (fwd_pooledValue (view st) = pooledValue (fwd_featureMap (view st)) "max" \/
   fwd_pooledValue (view st) = pooledValue (fwd_featureMap (view st)) "average").
Proof.
  cbv zeta. pose proof (run_invariant_from actions initialState initial_invariant) as Hinv.
  fold (run actions) in Hinv. destruct Hinv as (Hn & Hm & Hp).
  split; [done|]. split; [|split].
  - unfold applyConvolution. by rewrite Hn.
  - by apply pad4x4_id.
  - unfold view, forward. cbn [fwd_pooledValue fwd_featureMap].
    destruct Hm as [-> | ->]; [by left | by right].
Qed.

Lemma X1_witness :
  data img_empty = [] /\
  data (applyConvolution img_empty EMBOSS gray_normalized) = [].
Proof.
  split; [reflexivity|].
  destruct (X1_output_shape img_empty EMBOSS gray_normalized) as (_ & _ & _ & H).
  apply H. reflexivity.
Defined.
